(** * Enrichment engine of the Flashduty MCP server (package flashduty)

    A shallow embedding of the cross-entity enrichment code of
    [pkg/flashduty] (incidents, timelines, channels, escalation rules):
    the batched fetchers [fetch*Infos], the joins [enrichIncidents],
    [enrichChannels], the escalation-rule builder of
    [QueryEscalationRules], the timeline id collector and the timeline
    detail transformer.

    Modelling choices.
    - int64 identifiers are [Z]; the code does no arithmetic on them.
    - A Go [map[string]any] is a reference: payload maps live in an
      explicit heap [heap] (locations [loc]), so that the aliasing of
      [copyMap] and the in-place writes of [enrichPersonIDsField] are
      visible.  Slices ([[]interface{}]) are only ever read, so they are
      plain values.
    - A float64 is a rational [Q]; Go's [int64(f)] truncates toward zero.
    - Go's map iteration order is unspecified: each [for k := range m]
      over a map goes through an enumeration that is a parameter of the
      development, assumed to be a permutation of the map's entries.
    - The HTTP transport is a parameter: a function from the request the
      code builds to the outcome the code then inspects.  Every fetcher
      returns the list of requests it issued together with its result. *)

From Stdlib Require Import ZArith QArith.
From stdpp Require Import base gmap sets list strings.

Local Open Scope Z_scope.

(* ------------------------------------------------------------------ *)
(** ** Dynamic values ([any]) and the heap of payload maps *)

Definition loc := positive.

(** The dynamic values that occur in a decoded timeline [detail]. *)
Inductive any : Type :=
| AFloat64 (q : Q)              (* float64, what encoding/json decodes numbers to *)
| AInt64 (z : Z)                (* int64 *)
| AInt (z : Z)                  (* int *)
| AString (s : string)
| ABool (b : bool)
| ANil                          (* untyped nil *)
| AIfaceSlice (vs : list any)   (* []interface{} *)
| AMapRef (l : loc)             (* map[string]any, a reference *)
| AMapSlice (ls : list loc).    (* []map[string]any *)

(** The maps reachable from payloads, by location. *)
Abbreviation heap := (gmap loc (gmap string any)).

(** [make(map...)] followed by writes: a fresh location. *)
Definition alloc (h : heap) (m : gmap string any) : heap * loc :=
  let l := fresh (dom h) in (<[l := m]> h, l).
Arguments alloc : simpl never.

(** Go's conversion [int64(f)] of a float64: truncation toward zero. *)
Definition float_to_int64 (q : Q) : Z := Z.quot (Qnum q) (Zpos (Qden q)).

(** toInt64 converts interface{} to int64 *)
Definition toInt64 (v : any) : option Z :=
  match v with
  | AFloat64 n => Some (float_to_int64 n)
  | AInt64 n => Some n
  | AInt n => Some n
  | _ => None
  end.

(* ------------------------------------------------------------------ *)
(** ** Records of the data model *)

Record PersonInfo := {
  pi_PersonID : Z; pi_PersonName : string; pi_Email : string;
  pi_Avatar : string; pi_As : string }.

(** [Members] of [TeamInfo] is never set on the paths modelled here. *)
Record TeamInfo := { ti_TeamID : Z; ti_TeamName : string }.

Record ScheduleInfo := { si_ScheduleID : Z; si_ScheduleName : string }.

Record ChannelInfo := {
  ci_ChannelID : Z; ci_ChannelName : string; ci_TeamID : Z;
  ci_TeamName : string; ci_CreatorID : Z; ci_CreatorName : string }.

(** RawTimelineItem; [Detail = None] is a nil map. *)
Record RawTimelineItem := {
  rt_Type : string; rt_CreatedAt : Z; rt_PersonID : Z; rt_Detail : option loc }.

Record TimelineEvent := {
  te_Type : string; te_Timestamp : Z; te_OperatorID : Z;
  te_OperatorName : string; te_Detail : any }.

(* ------------------------------------------------------------------ *)
(** ** Timeline id collector *)

(** extractPersonIDsFromDetail extracts person IDs from a detail map field *)
Definition extractPersonIDsFromDetail (detail : gmap string any) (field : string)
    (personIDs : list Z) : list Z :=
  match detail !! field with
  | Some (AIfaceSlice values) =>
      fold_left (fun acc v =>
        match toInt64 v with
        | Some id => if decide (id = 0) then acc else acc ++ [id]
        | None => acc
        end) values personIDs
  | _ => personIDs
  end.

(** The body of the loop of collectTimelinePersonIDs, for one item;
    [h] holds the detail maps. *)
Definition collectItemPersonIDs (h : heap) (personIDs : list Z) (item : RawTimelineItem)
    : list Z :=
  let personIDs := if decide (rt_PersonID item = 0) then personIDs
                   else personIDs ++ [rt_PersonID item] in
  match rt_Detail item with
  | None => personIDs                                  (* continue *)
  | Some l =>
      (* reading a map through its reference *)
      let detail := default ∅ (h !! l) in
      if String.eqb (rt_Type item) "i_assign" || String.eqb (rt_Type item) "i_a_rspd" then
        extractPersonIDsFromDetail detail "person_ids"
          (extractPersonIDsFromDetail detail "to" personIDs)
      else if String.eqb (rt_Type item) "i_notify" then
        extractPersonIDsFromDetail detail "to" personIDs
      else personIDs
  end.

(** collectTimelinePersonIDs extracts all person IDs from timeline items
    (including nested IDs in detail) *)
Definition collectTimelinePersonIDs (h : heap) (items : list RawTimelineItem) : list Z :=
  fold_left (collectItemPersonIDs h) items [].

(* ------------------------------------------------------------------ *)
(** ** Timeline detail transformer *)

(** The entry map built for one id in [enrichPersonIDsField]:
    [entry := map[string]any{"person_id": id}] and, when the id resolves,
    [entry["person_name"] = p.PersonName]. *)
Definition personEntry (personMap : gmap Z PersonInfo) (id : Z) : gmap string any :=
  let entry := {[ "person_id" := AInt64 id ]} in
  match personMap !! id with
  | Some p => <[ "person_name" := AString (pi_PersonName p) ]> entry
  | None => entry
  end.

(** The loop of [enrichPersonIDsField]: one fresh entry map per element
    that converts to int64; other elements are skipped ([continue]). *)
Fixpoint enrichValues (values : list any) (personMap : gmap Z PersonInfo) (h : heap)
    : heap * list loc :=
  match values with
  | [] => (h, [])
  | v :: vs =>
      match toInt64 v with
      | None => enrichValues vs personMap h
      | Some id =>
          let '(h1, l) := alloc h (personEntry personMap id) in
          let '(h2, ls) := enrichValues vs personMap h1 in
          (h2, l :: ls)
      end
  end.

(** enrichPersonIDsField: writes [enriched[field]] in place. *)
Definition enrichPersonIDsField (enriched : loc) (field : string)
    (personMap : gmap Z PersonInfo) (h : heap) : heap :=
  match h !! enriched ≫= (fun m => m !! field) with
  | Some (AIfaceSlice values) =>
      let '(h1, ls) := enrichValues values personMap h in
      alter (insert field (AMapSlice ls)) enriched h1
  | _ => h
  end.

(** copyMap creates a shallow copy of a map *)
Definition copyMap (h : heap) (m : loc) : heap * loc :=
  alloc h (default ∅ (h !! m)).

(** enrichTimelineDetail *)
Definition enrichTimelineDetail (eventType : string) (detail : option loc)
    (personMap : gmap Z PersonInfo) (h : heap) : heap * any :=
  match detail with
  | None => (h, ANil)
  | Some d =>
      let '(h1, enriched) := copyMap h d in
      let h2 :=
        if String.eqb eventType "i_notify" then
          enrichPersonIDsField enriched "to" personMap h1
        else if String.eqb eventType "i_assign" || String.eqb eventType "i_a_rspd" then
          enrichPersonIDsField enriched "person_ids" personMap
            (enrichPersonIDsField enriched "to" personMap h1)
        else h1 in
      (h2, AMapRef enriched)
  end.

(** enrichTimelineItems *)
Fixpoint enrichTimelineItems (items : list RawTimelineItem)
    (personMap : gmap Z PersonInfo) (h : heap) : heap * list TimelineEvent :=
  match items with
  | [] => (h, [])
  | item :: rest =>
      let name := match personMap !! rt_PersonID item with
                  | Some p => pi_PersonName p | None => "" end in
      let '(h1, d) := enrichTimelineDetail (rt_Type item) (rt_Detail item) personMap h in
      let event := {| te_Type := rt_Type item; te_Timestamp := rt_CreatedAt item;
                      te_OperatorID := rt_PersonID item; te_OperatorName := name;
                      te_Detail := d |} in
      let '(h2, events) := enrichTimelineItems rest personMap h1 in
      (h2, event :: events)
  end.

(* ------------------------------------------------------------------ *)
(** ** Transport, errors and the batched fetchers *)

(** A request as [makeRequest] sends it for a batch lookup: method, path
    and the body [{key: uniqueIDs}]. *)
Record Request := {
  req_method : string; req_path : string; req_key : string; req_ids : list Z }.

(** The envelope [{"error": ..., "data": {"items": [...]}}] after
    parseResponse; [env_data = None] is a missing [data]. *)
Record Envelope (A : Type) := {
  env_error : option (string * string);   (* DutyError code and message *)
  env_data : option (list A) }.
Arguments env_error {A}.
Arguments env_data {A}.

(** What the code observes of one round trip through [makeRequest]. *)
Inductive Outcome (A : Type) :=
| TransportError (msg : string)                       (* makeRequest returned err *)
| Response (status : Z) (body : option (Envelope A)).  (* None: parseResponse failed *)
Arguments TransportError {A}.
Arguments Response {A}.

Inductive Error :=
| ErrFetch (what msg : string)    (* fmt.Errorf("unable to fetch %s: %w", ...) *)
| ErrStatus (status : Z)          (* handleAPIError(resp) *)
| ErrParse                        (* the error of parseResponse *)
| ErrAPI (code message : string). (* "API error: %s - %s" *)

(** A Go [(value, error)] pair: [inl] carries the error. *)
Abbreviation Result A := (Error + A)%type.

(** The decoded items of /channel/infos and /schedule/infos (the items of
    /person/infos and /team/infos have the fields of PersonInfo and TeamInfo). *)
Record ChannelItem := {
  chi_ChannelID : Z; chi_ChannelName : string; chi_TeamID : Z; chi_CreatorID : Z }.
Record ScheduleItem := { sci_ID : option Z; sci_Name : option string }.

(** [c *Client]: how the remote API answers each batch lookup. *)
Record Client := {
  sendPerson : Request -> Outcome PersonInfo;
  sendTeam : Request -> Outcome TeamInfo;
  sendSchedule : Request -> Outcome ScheduleItem;
  sendChannel : Request -> Outcome ChannelItem }.

Section Fetch.
Context {Item Info : Type}.

(** Go's [for id := range idSet]: the order of a map iteration. *)
Variable range_ids : gset Z -> list Z.

(** [idSet[id] = struct{}{}] for every nonzero id. *)
Definition dedupIDs (ids : list Z) : gset Z :=
  fold_left (fun idSet id => if decide (id = 0) then idSet else {[ id ]} ∪ idSet) ids ∅.

(** The loop over [result.Data.Items]: [entry] gives the key and the
    value stored, or [None] when the item is skipped. *)
Definition buildInfoMap (entry : Item -> option (Z * Info)) (items : list Item)
    : gmap Z Info :=
  fold_left (fun m it => match entry it with
                         | Some (k, v) => <[ k := v ]> m
                         | None => m
                         end) items ∅.

(** The common body of fetchPersonInfos, fetchTeamInfos,
    fetchScheduleInfos and fetchChannelInfos. *)
Definition fetchInfos (what path key : string) (send : Request -> Outcome Item)
    (entry : Item -> option (Z * Info)) (ids : list Z)
    : list Request * Result (gmap Z Info) :=
  match ids with
  | [] => ([], inr ∅)
  | _ :: _ =>
      let uniqueIDs := range_ids (dedupIDs ids) in
      match uniqueIDs with
      | [] => ([], inr ∅)
      | _ :: _ =>
          let req := {| req_method := "POST"; req_path := path; req_key := key;
                        req_ids := uniqueIDs |} in
          ([req],
           match send req with
           | TransportError msg => inl (ErrFetch what msg)
           | Response status body =>
               if decide (status = 200) then
                 match body with
                 | None => inl ErrParse
                 | Some env =>
                     match env_error env with
                     | Some (code, message) => inl (ErrAPI code message)
                     | None => inr (buildInfoMap entry (default [] (env_data env)))
                     end
                 end
               else inl (ErrStatus status)
           end)
      end
  end.
End Fetch.

Section Client.
Variable range_ids : gset Z -> list Z.
Variable c : Client.

Definition fetchPersonInfos (personIDs : list Z) : list Request * Result (gmap Z PersonInfo) :=
  fetchInfos range_ids "person information" "/person/infos" "person_ids" (sendPerson c)
    (fun item => Some (pi_PersonID item,
       {| pi_PersonID := pi_PersonID item; pi_PersonName := pi_PersonName item;
          pi_Email := pi_Email item; pi_Avatar := pi_Avatar item; pi_As := pi_As item |}))
    personIDs.

Definition fetchTeamInfos (teamIDs : list Z) : list Request * Result (gmap Z TeamInfo) :=
  fetchInfos range_ids "team information" "/team/infos" "team_ids" (sendTeam c)
    (fun item => Some (ti_TeamID item,
       {| ti_TeamID := ti_TeamID item; ti_TeamName := ti_TeamName item |}))
    teamIDs.

Definition fetchScheduleInfos (scheduleIDs : list Z)
    : list Request * Result (gmap Z ScheduleInfo) :=
  fetchInfos range_ids "schedule information" "/schedule/infos" "schedule_ids" (sendSchedule c)
    (fun item => match sci_ID item with
                 | Some id => Some (id, {| si_ScheduleID := id;
                                           si_ScheduleName := default "" (sci_Name item) |})
                 | None => None
                 end)
    scheduleIDs.

Definition fetchChannelInfos (channelIDs : list Z) : list Request * Result (gmap Z ChannelInfo) :=
  fetchInfos range_ids "channel information" "/channel/infos" "channel_ids" (sendChannel c)
    (fun item => Some (chi_ChannelID item,
       {| ci_ChannelID := chi_ChannelID item; ci_ChannelName := chi_ChannelName item;
          ci_TeamID := chi_TeamID item; ci_TeamName := "";
          ci_CreatorID := chi_CreatorID item; ci_CreatorName := "" |}))
    channelIDs.
End Client.

(* ------------------------------------------------------------------ *)
(** ** Incidents *)

Record RawResponder := {
  rr_PersonID : Z; rr_AssignedAt : Z; rr_AcknowledgedAt : Z }.

(** RawIncident; [Labels] and [Fields] are maps the code only copies. *)
Record RawIncident := {
  ri_IncidentID : string; ri_Title : string; ri_Description : string;
  ri_Severity : string; ri_Progress : string;
  ri_StartTime : Z; ri_AckTime : Z; ri_CloseTime : Z;
  ri_ChannelID : Z; ri_CreatorID : Z; ri_CloserID : Z;
  ri_Responders : list RawResponder;
  ri_Labels : gmap string string; ri_Fields : gmap string any }.

Record EnrichedResponder := {
  er_PersonID : Z; er_PersonName : string; er_Email : string;
  er_AssignedAt : Z; er_AcknowledgedAt : Z }.

Record AlertPreview := {
  ap_AlertID : string; ap_Title : string; ap_Severity : string; ap_Status : string;
  ap_StartTime : Z; ap_Labels : gmap string string }.

Record EnrichedIncident := {
  ei_IncidentID : string; ei_Title : string; ei_Description : string;
  ei_Severity : string; ei_Progress : string;
  ei_StartTime : Z; ei_AckTime : Z; ei_CloseTime : Z;
  ei_ChannelID : Z; ei_ChannelName : string;
  ei_CreatorID : Z; ei_CreatorName : string; ei_CreatorEmail : string;
  ei_CloserID : Z; ei_CloserName : string;
  ei_Responders : list EnrichedResponder;
  ei_Timeline : list TimelineEvent;
  ei_AlertsPreview : list AlertPreview; ei_AlertsTotal : Z;
  ei_Labels : gmap string string; ei_CustomFields : gmap string any }.

(** The first loop of enrichIncidents: person ids (creator, closer,
    responders) and channel ids, zeros skipped. *)
Definition collectIncidentIDs (rawIncidents : list RawIncident) : list Z * list Z :=
  fold_left (fun '(personIDs, channelIDs) inc =>
    let personIDs := if decide (ri_CreatorID inc = 0) then personIDs
                     else personIDs ++ [ri_CreatorID inc] in
    let personIDs := if decide (ri_CloserID inc = 0) then personIDs
                     else personIDs ++ [ri_CloserID inc] in
    let personIDs := fold_left (fun acc r => if decide (rr_PersonID r = 0) then acc
                                             else acc ++ [rr_PersonID r])
                               (ri_Responders inc) personIDs in
    let channelIDs := if decide (ri_ChannelID inc = 0) then channelIDs
                      else channelIDs ++ [ri_ChannelID inc] in
    (personIDs, channelIDs)) rawIncidents ([], []).

(** One responder of the "Enrich responders" loop. *)
Definition enrichResponder (personMap : gmap Z PersonInfo) (r : RawResponder) : EnrichedResponder :=
  match personMap !! rr_PersonID r with
  | Some p => {| er_PersonID := rr_PersonID r; er_PersonName := pi_PersonName p;
                 er_Email := pi_Email p; er_AssignedAt := rr_AssignedAt r;
                 er_AcknowledgedAt := rr_AcknowledgedAt r |}
  | None => {| er_PersonID := rr_PersonID r; er_PersonName := ""; er_Email := "";
               er_AssignedAt := rr_AssignedAt r; er_AcknowledgedAt := rr_AcknowledgedAt r |}
  end.

(** The body of the "Build enriched incidents" loop. *)
Definition buildEnrichedIncident (personMap : gmap Z PersonInfo)
    (channelMap : gmap Z ChannelInfo) (raw : RawIncident) : EnrichedIncident :=
  let channelName := match channelMap !! ri_ChannelID raw with
                     | Some ch => ci_ChannelName ch | None => "" end in
  let '(creatorName, creatorEmail) := match personMap !! ri_CreatorID raw with
                                      | Some p => (pi_PersonName p, pi_Email p)
                                      | None => ("", "") end in
  let closerName := match personMap !! ri_CloserID raw with
                    | Some p => pi_PersonName p | None => "" end in
  {| ei_IncidentID := ri_IncidentID raw; ei_Title := ri_Title raw;
     ei_Description := ri_Description raw; ei_Severity := ri_Severity raw;
     ei_Progress := ri_Progress raw; ei_StartTime := ri_StartTime raw;
     ei_AckTime := ri_AckTime raw; ei_CloseTime := ri_CloseTime raw;
     ei_ChannelID := ri_ChannelID raw; ei_ChannelName := channelName;
     ei_CreatorID := ri_CreatorID raw; ei_CreatorName := creatorName;
     ei_CreatorEmail := creatorEmail;
     ei_CloserID := ri_CloserID raw; ei_CloserName := closerName;
     ei_Responders := map (enrichResponder personMap) (ri_Responders raw);
     ei_Timeline := []; ei_AlertsPreview := []; ei_AlertsTotal := 0;
     ei_Labels := ri_Labels raw; ei_CustomFields := ri_Fields raw |}.

(** [g.Wait()] of an errgroup with two goroutines: the first error
    returned, in time order; [left_first] says which of two failing
    goroutines returned first. *)
Definition groupWait {A B : Type} (left_first : bool) (ra : Result A) (rb : Result B)
    : Result (A * B) :=
  match ra, rb with
  | inr a, inr b => inr (a, b)
  | inl e, inr _ => inl e
  | inr _, inl e => inl e
  | inl e1, inl e2 => inl (if left_first then e1 else e2)
  end.

Section Incidents.
Variable range_ids : gset Z -> list Z.
Variable c : Client.
Variable left_first : bool.

(** enrichIncidents enriches incidents with person and channel names.
    The two lookups run concurrently; the requests are listed person
    first, which says nothing of their order on the wire. *)
Definition enrichIncidents (rawIncidents : list RawIncident)
    : list Request * Result (list EnrichedIncident) :=
  let '(personIDs, channelIDs) := collectIncidentIDs rawIncidents in
  let '(rq1, personRes) := fetchPersonInfos range_ids c personIDs in
  let '(rq2, channelRes) := fetchChannelInfos range_ids c channelIDs in
  (rq1 ++ rq2,
   match groupWait left_first personRes channelRes with
   | inl err => inl err
   | inr (personMap, channelMap) =>
       inr (map (buildEnrichedIncident personMap channelMap) rawIncidents)
   end).
End Incidents.

(* ------------------------------------------------------------------ *)
(** ** Escalation rules (the handler of QueryEscalationRules) *)

Record NotifyBy := {
  nb_FollowPreference : bool; nb_Critical : list string;
  nb_Warning : list string; nb_Info : list string }.

Record TimeFilter := {
  tf_Start : string; tf_End : string; tf_Repeat : list Z; tf_CalID : string; tf_IsOff : bool }.

Record AlertCondition := { ac_Key : string; ac_Oper : string; ac_Vals : list string }.

(** A webhook of a raw target; [Settings = None] is a nil map. *)
Record RawWebhook := { rw_Type : string; rw_Settings : option (gmap string any) }.

Record RawTarget := {
  rtg_PersonIDs : list Z; rtg_TeamIDs : list Z;
  rtg_ScheduleToRoleIDs : gmap Z (list Z);
  rtg_By : option NotifyBy; rtg_Webhooks : list RawWebhook }.

Record RawLayer := {
  rl_MaxTimes : Z; rl_NotifyStep : Q; rl_EscalateWindow : Z; rl_ForceEscalate : bool;
  rl_Target : option RawTarget }.

Record RawEscalationRule := {
  rer_RuleID : string; rer_RuleName : string; rer_Description : string;
  rer_ChannelID : Z; rer_Status : string; rer_Priority : Z; rer_AggrWindow : Z;
  rer_Layers : list RawLayer; rer_TimeFilters : list TimeFilter;
  rer_Filters : list (list AlertCondition) }.

Record PersonTarget := { pt_PersonID : Z; pt_PersonName : string; pt_Email : string }.
(** [Members] of TeamTarget is never set by the handler. *)
Record TeamTarget := { tt_TeamID : Z; tt_TeamName : string }.
Record ScheduleTarget := { st_ScheduleID : Z; st_ScheduleName : string; st_RoleIDs : list Z }.
Record WebhookConfig := {
  wc_Type : string; wc_Alias : string; wc_Settings : option (gmap string any) }.

Record EscalationTarget := {
  et_Persons : list PersonTarget; et_Teams : list TeamTarget;
  et_Schedules : list ScheduleTarget; et_NotifyBy : option NotifyBy;
  et_Webhooks : list WebhookConfig }.

Record EscalationLayer := {
  el_LayerIdx : nat; el_Timeout : Z; el_NotifyInterval : Q; el_MaxTimes : Z;
  el_ForceEscalate : bool; el_Target : option EscalationTarget }.

Record EscalationRule := {
  erl_RuleID : string; erl_RuleName : string; erl_Description : string;
  erl_ChannelID : Z; erl_ChannelName : string; erl_Status : string;
  erl_Priority : Z; erl_AggrWindow : Z; erl_Layers : list EscalationLayer;
  erl_TimeFilters : list TimeFilter; erl_Filters : list (list AlertCondition) }.

(** The "Build persons list with names" loop, for one person id. *)
Definition personTarget (personMap : gmap Z PersonInfo) (pid : Z) : PersonTarget :=
  match personMap !! pid with
  | Some p => {| pt_PersonID := pid; pt_PersonName := pi_PersonName p; pt_Email := pi_Email p |}
  | None => {| pt_PersonID := pid; pt_PersonName := ""; pt_Email := "" |}
  end.

Definition teamTarget (teamMap : gmap Z TeamInfo) (tid : Z) : TeamTarget :=
  {| tt_TeamID := tid;
     tt_TeamName := match teamMap !! tid with Some t => ti_TeamName t | None => "" end |}.

Definition scheduleTarget (scheduleMap : gmap Z ScheduleInfo) (sid : Z) (roleIDs : list Z)
    : ScheduleTarget :=
  {| st_ScheduleID := sid; st_RoleIDs := roleIDs;
     st_ScheduleName := match scheduleMap !! sid with
                        | Some s => si_ScheduleName s | None => "" end |}.

(** [alias, ok := wh.Settings["alias"].(string)] *)
Definition webhookConfig (wh : RawWebhook) : WebhookConfig :=
  {| wc_Type := rw_Type wh; wc_Settings := rw_Settings wh;
     wc_Alias := match rw_Settings wh with
                 | Some settings => match settings !! "alias" with
                                    | Some (AString alias) => alias
                                    | _ => ""
                                    end
                 | None => ""
                 end |}.

Section Escalation.
(** Go's [for sid, roleIDs := range l.Target.ScheduleToRoleIDs]. *)
Variable range_roles : gmap Z (list Z) -> list (Z * list Z).

Definition buildTarget (personMap : gmap Z PersonInfo) (teamMap : gmap Z TeamInfo)
    (scheduleMap : gmap Z ScheduleInfo) (t : RawTarget) : EscalationTarget :=
  {| et_Persons := map (personTarget personMap) (rtg_PersonIDs t);
     et_Teams := map (teamTarget teamMap) (rtg_TeamIDs t);
     et_Schedules := map (fun '(sid, roleIDs) => scheduleTarget scheduleMap sid roleIDs)
                         (range_roles (rtg_ScheduleToRoleIDs t));
     et_NotifyBy := rtg_By t;
     et_Webhooks := map webhookConfig (rtg_Webhooks t) |}.

(** The "Build layers" loop: [for idx, l := range r.Layers]. *)
Definition buildLayer personMap teamMap scheduleMap (idx : nat) (l : RawLayer)
    : EscalationLayer :=
  {| el_LayerIdx := idx; el_Timeout := rl_EscalateWindow l;
     el_NotifyInterval := rl_NotifyStep l; el_MaxTimes := rl_MaxTimes l;
     el_ForceEscalate := rl_ForceEscalate l;
     el_Target := buildTarget personMap teamMap scheduleMap <$> rl_Target l |}.

Definition buildRule personMap teamMap scheduleMap (channelMap : gmap Z ChannelInfo)
    (r : RawEscalationRule) : EscalationRule :=
  {| erl_RuleID := rer_RuleID r; erl_RuleName := rer_RuleName r;
     erl_Description := rer_Description r; erl_ChannelID := rer_ChannelID r;
     erl_Status := rer_Status r; erl_Priority := rer_Priority r;
     erl_AggrWindow := rer_AggrWindow r;
     erl_ChannelName := match channelMap !! rer_ChannelID r with
                        | Some ch => ci_ChannelName ch | None => "" end;
     erl_Layers := imap (buildLayer personMap teamMap scheduleMap) (rer_Layers r);
     erl_TimeFilters := rer_TimeFilters r;
     erl_Filters := rer_Filters r |}.

(** The "Collect all IDs for enrichment" loop. *)
Definition collectRuleIDs (rules : list RawEscalationRule) : list Z * list Z * list Z :=
  fold_left (fun acc r =>
    fold_left (fun '(personIDs, teamIDs, scheduleIDs) l =>
      match rl_Target l with
      | None => (personIDs, teamIDs, scheduleIDs)          (* continue *)
      | Some t =>
          (fold_left (fun a pid => if decide (pid = 0) then a else a ++ [pid])
                     (rtg_PersonIDs t) personIDs,
           fold_left (fun a tid => if decide (tid = 0) then a else a ++ [tid])
                     (rtg_TeamIDs t) teamIDs,
           fold_left (fun a sid => if decide (sid = 0) then a else a ++ [sid])
                     (map fst (range_roles (rtg_ScheduleToRoleIDs t))) scheduleIDs)
      end) (rer_Layers r) acc) rules ([], [], []).

Variable range_ids : gset Z -> list Z.
Variable c : Client.

(** The enrichment part of the handler, for a non-empty list of raw
    rules of channel [channelID]: four concurrent lookups, each falling
    back to an empty map on error, then the rules are built. *)
Definition enrichEscalationRules (channelID : Z) (rules : list RawEscalationRule)
    : list Request * list EscalationRule :=
  let '(personIDs, teamIDs, scheduleIDs) := collectRuleIDs rules in
  let '(rq1, personRes) := fetchPersonInfos range_ids c personIDs in
  let '(rq2, teamRes) := fetchTeamInfos range_ids c teamIDs in
  let '(rq3, scheduleRes) := fetchScheduleInfos range_ids c scheduleIDs in
  let '(rq4, channelRes) := fetchChannelInfos range_ids c [channelID] in
  let personMap := match personRes with inr m => m | inl _ => ∅ end in
  let teamMap := match teamRes with inr m => m | inl _ => ∅ end in
  let scheduleMap := match scheduleRes with inr m => m | inl _ => ∅ end in
  let channelMap := match channelRes with inr m => m | inl _ => ∅ end in
  (rq1 ++ rq2 ++ rq3 ++ rq4,
   map (buildRule personMap teamMap scheduleMap channelMap) rules).
End Escalation.

(* ------------------------------------------------------------------ *)
(** ** Byte strings: the parts of package strings and strconv in use

    A Go string is a sequence of bytes; here a [string] of [Ascii.ascii]
    (one byte each), compared through their codes. *)

Definition byteOf (ch : Ascii.ascii) : nat := Ascii.nat_of_ascii ch.
Definition bytesOf (s : string) : list nat := map byteOf (String.list_ascii_of_string s).

(** [strings.Index(s, substr)]; [None] is Go's -1. *)
Fixpoint Index (s substr : string) : option nat :=
  if String.prefix substr s then Some 0%nat
  else match s with
       | EmptyString => None
       | String _ rest => S <$> Index rest substr
       end.

(** [strings.Contains(s, substr)]. *)
Definition Contains (s substr : string) : bool :=
  match Index s substr with Some _ => true | None => false end.

(** [strings.IndexAny(s, chars)] for a [chars] of ASCII characters: the
    first byte of [s] equal to one of them (an ASCII byte never occurs
    inside the UTF-8 encoding of another rune). *)
Fixpoint IndexAny (s chars : string) : option nat :=
  match s with
  | EmptyString => None
  | String ch rest =>
      if existsb (Nat.eqb (byteOf ch)) (bytesOf chars) then Some 0%nat
      else S <$> IndexAny rest chars
  end.

(** Go's slice expressions [s[:i]] and [s[i:]]. *)
Definition sliceTo (i : nat) (s : string) : string := String.substring 0 i s.
Definition sliceFrom (i : nat) (s : string) : string :=
  String.substring i (String.length s - i) s.

(** [strings.Split(s, ",")]. *)
Fixpoint splitComma (s : string) : list string :=
  match s with
  | EmptyString => [""%string]
  | String ch rest =>
      let parts := splitComma rest in
      if Nat.eqb (byteOf ch) 44 then ""%string :: parts
      else match parts with
           | p :: ps => String ch p :: ps
           | [] => [String ch EmptyString]
           end
  end.

(** The UTF-8 encodings of the runes for which [unicode.IsSpace] holds:
    U+0009..U+000D, U+0020, U+0085, U+00A0, U+1680, U+2000..U+200A,
    U+2028, U+2029, U+202F, U+205F and U+3000. *)
Definition spaceEncodings : list (list nat) :=
  [[9]; [10]; [11]; [12]; [13]; [32]; [194; 133]; [194; 160]; [225; 154; 128];
   [226; 128; 128]; [226; 128; 129]; [226; 128; 130]; [226; 128; 131];
   [226; 128; 132]; [226; 128; 133]; [226; 128; 134]; [226; 128; 135];
   [226; 128; 136]; [226; 128; 137]; [226; 128; 138];
   [226; 128; 168]; [226; 128; 169]; [226; 128; 175]; [226; 129; 159];
   [227; 128; 128]]%nat.

Fixpoint prefixb (p l : list nat) : bool :=
  match p, l with
  | [], _ => true
  | x :: p', y :: l' => Nat.eqb x y && prefixb p' l'
  | _ :: _, [] => false
  end.

(** The byte length of the space rune that [utf8.DecodeRuneInString]
    reads at the front of [l], 0 when the first rune is not a space
    (invalid bytes decode to RuneError, which is not a space). *)
Definition leadingSpaceLen (l : list Ascii.ascii) : nat :=
  match find (fun e => prefixb e (map byteOf l)) spaceEncodings with
  | Some e => length e
  | None => 0%nat
  end.

(** The same at the end, as [utf8.DecodeLastRuneInString] reads it. *)
Definition trailingSpaceLen (l : list Ascii.ascii) : nat :=
  match find (fun e => prefixb (rev e) (rev (map byteOf l))) spaceEncodings with
  | Some e => length e
  | None => 0%nat
  end.

Fixpoint trimLeftSpace (fuel : nat) (l : list Ascii.ascii) : list Ascii.ascii :=
  match fuel with
  | O => l
  | S f => match leadingSpaceLen l with
           | O => l
           | k => trimLeftSpace f (drop k l)
           end
  end.

Fixpoint trimRightSpace (fuel : nat) (l : list Ascii.ascii) : list Ascii.ascii :=
  match fuel with
  | O => l
  | S f => match trailingSpaceLen l with
           | O => l
           | k => trimRightSpace f (take (length l - k) l)
           end
  end.

(** [strings.TrimSpace]: [TrimRightFunc(TrimLeftFunc(s, IsSpace), IsSpace)]
    (its ASCII fast path computes the same string).  Each step removes at
    least one byte, so [length] steps suffice. *)
Definition TrimSpace (s : string) : string :=
  let l := String.list_ascii_of_string s in
  let l1 := trimLeftSpace (length l) l in
  String.string_of_list_ascii (trimRightSpace (length l1) l1).

Definition isDigit (ch : Ascii.ascii) : bool :=
  Nat.leb 48 (byteOf ch) && Nat.leb (byteOf ch) 57.
Definition digitValue (ch : Ascii.ascii) : Z := Z.of_nat (byteOf ch) - 48.

(** [strconv.Atoi] on a 64-bit platform: an optional sign, then one or
    more decimal digits, with a value in the int64 range; [None] is a
    non-nil error (syntax or range).  Underscores are not accepted in
    base 10. *)
Definition Atoi (s : string) : option Z :=
  let l := String.list_ascii_of_string s in
  let '(neg, ds) := match l with
                    | ch :: r => if Nat.eqb (byteOf ch) 45 then (true, r)
                                 else if Nat.eqb (byteOf ch) 43 then (false, r)
                                 else (false, l)
                    | [] => (false, l)
                    end in
  match ds with
  | [] => None
  | _ :: _ =>
      if forallb isDigit ds then
        let n := fold_left (fun n ch => n * 10 + digitValue ch) ds 0 in
        let v := if neg then - n else n in
        if (- 2 ^ 63 <=? v) && (v <? 2 ^ 63) then Some v else None
      else None
  end.

(** parseCommaSeparatedInts (pkg/flashduty/incidents.go); Go returns nil
    for [""] and an empty slice when no part parses, both empty here. *)
Definition parseCommaSeparatedInts (s : string) : list Z :=
  if String.eqb s "" then []
  else fold_left (fun result part =>
         let part := TrimSpace part in
         if String.eqb part "" then result
         else match Atoi part with
              | Some id => result ++ [id]
              | None => result
              end) (splitComma s) [].

(* ------------------------------------------------------------------ *)
(** ** sanitizeError (the error text of a failed [httpClient.Do]) *)

Definition sanitizeError (errStr : string) : string :=
  match Index errStr "app_key=" with
  | None => errStr
  | Some idx =>
      match IndexAny (sliceFrom idx errStr) "& " with
      | None => (sliceTo idx errStr ++ "app_key=[REDACTED]")%string
      | Some endIdx =>
          (sliceTo idx errStr ++ "app_key=[REDACTED]" ++ sliceFrom (idx + endIdx) errStr)%string
      end
  end.

(* ------------------------------------------------------------------ *)
(** ** Channels: enrichChannels and the handler of QueryChannels *)

(** The body of the "Enrich channels" loop for one channel: a name is
    overwritten only when its lookup finds the team (creator). *)
Definition enrichChannel (teamMap : gmap Z TeamInfo) (personMap : gmap Z PersonInfo)
    (ch : ChannelInfo) : ChannelInfo :=
  {| ci_ChannelID := ci_ChannelID ch; ci_ChannelName := ci_ChannelName ch;
     ci_TeamID := ci_TeamID ch;
     ci_TeamName := match teamMap !! ci_TeamID ch with
                    | Some t => ti_TeamName t | None => ci_TeamName ch end;
     ci_CreatorID := ci_CreatorID ch;
     ci_CreatorName := match personMap !! ci_CreatorID ch with
                       | Some p => pi_PersonName p | None => ci_CreatorName ch end |}.

(** "Collect all team IDs and creator IDs". *)
Definition collectChannelIDs (channels : list ChannelInfo) : list Z * list Z :=
  fold_left (fun '(teamIDs, personIDs) ch =>
    (if decide (ci_TeamID ch = 0) then teamIDs else teamIDs ++ [ci_TeamID ch],
     if decide (ci_CreatorID ch = 0) then personIDs else personIDs ++ [ci_CreatorID ch]))
    channels ([], []).

(** A channel of the /channel/list answer, as QueryChannels stores it. *)
Definition channelOfItem (ch : ChannelItem) : ChannelInfo :=
  {| ci_ChannelID := chi_ChannelID ch; ci_ChannelName := chi_ChannelName ch;
     ci_TeamID := chi_TeamID ch; ci_TeamName := "";
     ci_CreatorID := chi_CreatorID ch; ci_CreatorName := "" |}.

(** The request [makeRequest(ctx, "POST", "/channel/list", {})]; its body
    is the empty object, so [req_key] and [req_ids] are empty. *)
Definition listChannelsRequest : Request :=
  {| req_method := "POST"; req_path := "/channel/list"; req_key := ""; req_ids := [] |}.

(** What the handler of QueryChannels returns. *)
Inductive ChannelsToolResult :=
| ToolErrorText (msg : string)                   (* mcp.NewToolResultError(msg) *)
| ToolError (prefix : option string) (e : Error)  (* mcp.NewToolResultError("prefix: " + e) *)
| HandlerTransportError (msg : string)           (* return nil, "unable to list channels: ..." *)
| HandlerParseError                              (* return nil, the error of parseResponse *)
| ChannelsResult (channels : list ChannelInfo) (total : Z). (* {"channels", "total"} *)

Section Channels.
Variable range_ids : gset Z -> list Z.
Variable c : Client.

(** enrichChannels.  Its error result is always nil: a failed lookup
    degrades to an empty map.  The two lookups run concurrently; the
    requests are listed team first. *)
Definition enrichChannels (channels : list ChannelInfo) : list Request * list ChannelInfo :=
  match channels with
  | [] => ([], channels)
  | _ :: _ =>
      let '(teamIDs, personIDs) := collectChannelIDs channels in
      let '(rq1, teamRes) := fetchTeamInfos range_ids c teamIDs in
      let '(rq2, personRes) := fetchPersonInfos range_ids c personIDs in
      let teamMap := match teamRes with inr m => m | inl _ => ∅ end in
      let personMap := match personRes with inr m => m | inl _ => ∅ end in
      (rq1 ++ rq2, map (enrichChannel teamMap personMap) channels)
  end.

(** Go's [for _, ch := range channelMap]. *)
Variable range_channels : gmap Z ChannelInfo -> list ChannelInfo.
(** [strings.ToLower]. *)
Variable ToLower : string -> string.

(** The "List all channels" loop: the name filter. *)
Definition filterChannels (name : string) (items : list ChannelItem) : list ChannelInfo :=
  fold_left (fun channels ch =>
    if negb (String.eqb name "")
       && negb (Contains (ToLower (chi_ChannelName ch)) (ToLower name))
    then channels                                   (* continue *)
    else channels ++ [channelOfItem ch]) items [].

(** The handler of QueryChannels, once the client is obtained, on the
    parameters [channel_ids] and [name] (absent is [""]). *)
Definition QueryChannels (channel_ids name : string) : list Request * ChannelsToolResult :=
  if negb (String.eqb channel_ids "") then
    match parseCommaSeparatedInts channel_ids with
    | [] => ([], ToolErrorText "channel_ids must contain at least one valid ID when specified")
    | channelIDs =>
        let '(rq1, res) := fetchChannelInfos range_ids c channelIDs in
        match res with
        | inl err => (rq1, ToolError (Some "Unable to retrieve channels") err)
        | inr channelMap =>
            let '(rq2, enrichedChannels) := enrichChannels (range_channels channelMap) in
            (rq1 ++ rq2, ChannelsResult enrichedChannels (Z.of_nat (length enrichedChannels)))
        end
    end
  else
    match sendChannel c listChannelsRequest with
    | TransportError msg => ([listChannelsRequest], HandlerTransportError msg)
    | Response status body =>
        if decide (status = 200) then
          match body with
          | None => ([listChannelsRequest], HandlerParseError)
          | Some env =>
              match env_error env with
              | Some (code, message) => ([listChannelsRequest], ToolError None (ErrAPI code message))
              | None =>
                  let channels := filterChannels name (default [] (env_data env)) in
                  let '(rq2, enrichedChannels) := enrichChannels channels in
                  (listChannelsRequest :: rq2,
                   ChannelsResult enrichedChannels (Z.of_nat (length enrichedChannels)))
              end
          end
        else ([listChannelsRequest], ToolError None (ErrStatus status))
    end.
End Channels.

(* ------------------------------------------------------------------ *)
(** ** Specification vocabulary for the timeline transformer *)

(** [h'] extends [h]: every map of [h] is still there, unchanged. *)
Definition heap_incl (h h' : heap) : Prop :=
  forall l m, h !! l = Some m -> h' !! l = Some m.

(** Event types whose detail has person-bearing fields. *)
Definition person_bearing (t : string) : Prop :=
  t = "i_notify" \/ t = "i_assign" \/ t = "i_a_rspd".

(** The person-bearing fields that [enrichTimelineDetail] rewrites for a type. *)
Definition owns_field (t f : string) : bool :=
  (String.eqb t "i_notify" && String.eqb f "to")
  || ((String.eqb t "i_assign" || String.eqb t "i_a_rspd")
      && (String.eqb f "to" || String.eqb f "person_ids")).

(** Location [l] of heap [h] holds the entry map of person [id]. *)
Definition entry_for (pm : gmap Z PersonInfo) (h : heap) (id : Z) (l : loc) : Prop :=
  exists e, h !! l = Some e /\
    e !! "person_id" = Some (AInt64 id) /\
    e !! "person_name" = ((fun p => AString (pi_PersonName p)) <$> pm !! id).

(** Postcondition of one [enrichPersonIDsField e f] step from [h] to [h']. *)
Definition field_step (pm : gmap Z PersonInfo) (e : loc) (f : string) (h h' : heap) : Prop :=
  (forall l x, l <> e -> h !! l = Some x -> h' !! l = Some x) /\
  (forall m, h !! e = Some m -> exists m', h' !! e = Some m' /\
     (forall k, k <> f -> m' !! k = m !! k) /\
     match m !! f with
     | Some (AIfaceSlice vs) => exists ls, m' !! f = Some (AMapSlice ls) /\
         Forall2 (fun id l => l <> e /\ entry_for pm h' id l) (omap toInt64 vs) ls
     | _ => m' !! f = m !! f
     end).

(** The scenario of the spec: person 5 is Bob, the detail is {"to": [5, 6]}. *)
Definition bob : PersonInfo :=
  {| pi_PersonID := 5; pi_PersonName := "Bob"; pi_Email := ""; pi_Avatar := ""; pi_As := "" |}.
Definition assign_heap : heap :=
  {[ 1%positive := {[ "to" := AIfaceSlice [AFloat64 5; AFloat64 6] ]} ]}.
Definition assign_item : RawTimelineItem :=
  {| rt_Type := "i_assign"; rt_CreatedAt := 1700000000; rt_PersonID := 0;
     rt_Detail := Some 1%positive |}.

(* ------------------------------------------------------------------ *)
(** ** Specification vocabulary for the joins *)

(** The display field [name] of identifier [id] follows the
    lookup-or-leave-blank rule against mapping [m]. *)
Definition shows {A : Type} (m : gmap Z A) (name_of : A -> string) (id : Z) (name : string)
    : Prop :=
  (forall x, m !! id = Some x -> name = name_of x) /\ (m !! id = None -> name = "").

(** Concrete clients: one whose every lookup fails, one that knows person
    7 (Alice) but whose channel lookup fails. *)
Definition downClient : Client :=
  {| sendPerson := fun _ => TransportError "connection refused";
     sendTeam := fun _ => TransportError "connection refused";
     sendSchedule := fun _ => TransportError "connection refused";
     sendChannel := fun _ => TransportError "connection refused" |}.

Definition alice : PersonInfo :=
  {| pi_PersonID := 7; pi_PersonName := "Alice"; pi_Email := "alice@example.com";
     pi_Avatar := ""; pi_As := "" |}.

Definition channelDownClient : Client :=
  {| sendPerson := fun _ => Response 200 (Some {| env_error := None; env_data := Some [alice] |});
     sendTeam := fun _ => Response 200 (Some {| env_error := None; env_data := Some [] |});
     sendSchedule := fun _ => Response 200 (Some {| env_error := None; env_data := Some [] |});
     sendChannel := fun _ => TransportError "connection reset by peer" |}.

Definition incident7 : RawIncident :=
  {| ri_IncidentID := "inc-1"; ri_Title := "disk full"; ri_Description := "";
     ri_Severity := "Critical"; ri_Progress := "Triggered";
     ri_StartTime := 1700000000; ri_AckTime := 0; ri_CloseTime := 0;
     ri_ChannelID := 3; ri_CreatorID := 7; ri_CloserID := 0;
     ri_Responders := [ {| rr_PersonID := 7; rr_AssignedAt := 1700000001; rr_AcknowledgedAt := 0 |} ];
     ri_Labels := ∅; ri_Fields := ∅ |}.

(** A layer target: persons 7 and 9, schedule 1 (no roles) and
    schedule 2 (role 4). *)
Definition target3 : RawTarget :=
  {| rtg_PersonIDs := [7; 9]; rtg_TeamIDs := [];
     rtg_ScheduleToRoleIDs := {[ 1 := []; 2 := [4] ]};
     rtg_By := None; rtg_Webhooks := [] |}.

Definition rule3 : RawEscalationRule :=
  {| rer_RuleID := "r-1"; rer_RuleName := "default"; rer_Description := "";
     rer_ChannelID := 3; rer_Status := "enabled"; rer_Priority := 0; rer_AggrWindow := 0;
     rer_Layers := [ {| rl_MaxTimes := 1; rl_NotifyStep := 10; rl_EscalateWindow := 30;
                        rl_ForceEscalate := false; rl_Target := Some target3 |} ];
     rer_TimeFilters := []; rer_Filters := [] |}.

Definition ops : ChannelItem :=
  {| chi_ChannelID := 3; chi_ChannelName := "Ops"; chi_TeamID := 0; chi_CreatorID := 0 |}.

(** A client under which every lookup succeeds: person 7 is Alice,
    channel 3 is Ops. *)
Definition opsClient : Client :=
  {| sendPerson := fun _ => Response 200 (Some {| env_error := None; env_data := Some [alice] |});
     sendTeam := fun _ => Response 200 (Some {| env_error := None; env_data := Some [] |});
     sendSchedule := fun _ => Response 200 (Some {| env_error := None; env_data := Some [] |});
     sendChannel := fun _ => Response 200 (Some {| env_error := None; env_data := Some [ops] |}) |}.

(** The non-display fields of an incident, copied verbatim. *)
Definition copies_incident (raw : RawIncident) (out : EnrichedIncident) : Prop :=
  ei_IncidentID out = ri_IncidentID raw /\ ei_Title out = ri_Title raw /\
  ei_Description out = ri_Description raw /\ ei_Severity out = ri_Severity raw /\
  ei_Progress out = ri_Progress raw /\ ei_StartTime out = ri_StartTime raw /\
  ei_AckTime out = ri_AckTime raw /\ ei_CloseTime out = ri_CloseTime raw /\
  ei_ChannelID out = ri_ChannelID raw /\ ei_CreatorID out = ri_CreatorID raw /\
  ei_CloserID out = ri_CloserID raw /\ ei_Labels out = ri_Labels raw /\
  ei_CustomFields out = ri_Fields raw.

(** The non-display fields of a timeline event, copied verbatim. *)
Definition copies_event (item : RawTimelineItem) (ev : TimelineEvent) : Prop :=
  te_Type ev = rt_Type item /\ te_Timestamp ev = rt_CreatedAt item /\
  te_OperatorID ev = rt_PersonID item.

(* ------------------------------------------------------------------ *)
(** ** Specification vocabulary for the parsing, redaction and channel code *)

(** One comma-separated part, as the loop of parseCommaSeparatedInts reads it. *)
Definition parsePart (part : string) : option Z :=
  let part := TrimSpace part in
  if String.eqb part "" then None else Atoi part.

(** The decimal digits of a nonnegative [n] in front of [acc]. *)
Fixpoint decDigits (fuel : nat) (n : Z) (acc : list Ascii.ascii) : list Ascii.ascii :=
  match fuel with
  | O => acc
  | S f =>
      let acc' := Ascii.ascii_of_nat (48 + Z.to_nat (n mod 10)) :: acc in
      if n <? 10 then acc' else decDigits f (n / 10) acc'
  end.

(** The decimal form of an int64, as [strconv.Itoa] writes it (64
    digits are more than enough). *)
Definition decimal (z : Z) : string :=
  String.string_of_list_ascii
    (if z <? 0 then Ascii.ascii_of_nat 45 :: decDigits 64 (- z) [] else decDigits 64 z []).

(** [strings.Join(parts, ",")]. *)
Fixpoint joinComma (parts : list string) : string :=
  match parts with
  | [] => ""
  | [p] => p
  | p :: ps => (p ++ "," ++ joinComma ps)%string
  end.

Definition int64_range (z : Z) : Prop := - 2 ^ 63 <= z < 2 ^ 63.

(** The display name [new] of an entity whose lookup gave [found]: the
    found record's name, or the previous value [old] when nothing was found. *)
Definition resolvesOrKeeps {A : Type} (found : option A) (name_of : A -> string)
    (old new : string) : Prop :=
  match found with Some x => new = name_of x | None => new = old end.

(** What a lookup result gives for [id]: nothing when the lookup failed. *)
Definition lookupResult {A : Type} (res : Result (gmap Z A)) (id : Z) : option A :=
  match res with inr m => m !! id | inl _ => None end.

(** The name filter of the channel list, as a boolean test on an item. *)
Definition keepChannel (ToLower : string -> string) (name : string) (ch : ChannelItem) : bool :=
  String.eqb name "" || Contains (ToLower (chi_ChannelName ch)) (ToLower name).

(** The value stored for key [k] by the last item that gives it. *)
Definition lastEntry {Item Info : Type} (entry : Item -> option (Z * Info)) (k : Z)
    (items : list Item) : option Info :=
  last (omap (fun it => match entry it with
                        | Some (k', v) => if decide (k' = k) then Some v else None
                        | None => None
                        end) items).

(** The requests a batch lookup on [ids] sends: one POST carrying the
    distinct nonzero IDs, when there is a nonzero ID. *)
Definition batchRequest (path key : string) (range_ids : gset Z -> list Z) (ids : list Z)
    : list Request :=
  if existsb (fun x => negb (x =? 0)) ids
  then [{| req_method := "POST"; req_path := path; req_key := key;
           req_ids := range_ids (dedupIDs ids) |}]
  else [].

(** A channel that has a team and a creator. *)
Definition billing : ChannelItem :=
  {| chi_ChannelID := 4; chi_ChannelName := "Billing"; chi_TeamID := 2; chi_CreatorID := 7 |}.

(** A client whose channel list holds Ops and Billing, team 2 is SRE and
    person 7 is Alice. *)
Definition channelListClient : Client :=
  {| sendPerson := fun _ => Response 200 (Some {| env_error := None; env_data := Some [alice] |});
     sendTeam := fun _ => Response 200 (Some {| env_error := None;
                   env_data := Some [{| ti_TeamID := 2; ti_TeamName := "SRE" |}] |});
     sendSchedule := fun _ => Response 200 (Some {| env_error := None; env_data := Some [] |});
     sendChannel := fun _ => Response 200 (Some {| env_error := None;
                      env_data := Some [ops; billing] |}) |}.

(** The fields of a channel that enrichment never rewrites. *)
Definition keepsIdentity (ch ch' : ChannelInfo) : Prop :=
  ci_ChannelID ch' = ci_ChannelID ch /\ ci_ChannelName ch' = ci_ChannelName ch /\
  ci_TeamID ch' = ci_TeamID ch /\ ci_CreatorID ch' = ci_CreatorID ch.

(** The person IDs an incident refers to, in the order enrichIncidents
    visits them: creator, closer, then the responders. *)
Definition incidentPersonRefs (inc : RawIncident) : list Z :=
  ri_CreatorID inc :: ri_CloserID inc :: map rr_PersonID (ri_Responders inc).

(** The IDs a layer's target refers to, per kind; a layer without a
    target refers to none. *)
Definition layerPersonRefs (l : RawLayer) : list Z :=
  match rl_Target l with Some t => rtg_PersonIDs t | None => [] end.
Definition layerTeamRefs (l : RawLayer) : list Z :=
  match rl_Target l with Some t => rtg_TeamIDs t | None => [] end.
Definition layerScheduleRefs (range_roles : gmap Z (list Z) -> list (Z * list Z))
    (l : RawLayer) : list Z :=
  match rl_Target l with
  | Some t => map fst (range_roles (rtg_ScheduleToRoleIDs t))
  | None => []
  end.

(** The nonzero entries of a list, in order. *)
Definition nonzero (l : list Z) : list Z := List.filter (fun z => negb (z =? 0)) l.

(* ================================================================== *)
(** * Proofs *)

(* ------------------------------------------------------------------ *)
(** ** Heap frame lemmas *)

Lemma heap_incl_refl h : heap_incl h h.
Proof. intros l m H; exact H. Qed.

Lemma heap_incl_trans h1 h2 h3 : heap_incl h1 h2 -> heap_incl h2 h3 -> heap_incl h1 h3.
Proof. intros H12 H23 l m H; auto. Qed.

Lemma alloc_new h m : h !! (alloc h m).2 = None /\ (alloc h m).1 !! (alloc h m).2 = Some m.
Proof.
  unfold alloc; simpl; split.
  - apply not_elem_of_dom_1, is_fresh.
  - apply lookup_insert_eq.
Qed.

Lemma alloc_incl h m : heap_incl h (alloc h m).1.
Proof.
  intros l m' H. unfold alloc; simpl.
  rewrite lookup_insert_ne; [exact H|].
  intros Heq. apply (is_fresh (dom h)). rewrite Heq. eapply elem_of_dom_2; eauto.
Qed.

Lemma enrichValues_incl vs pm h : heap_incl h (enrichValues vs pm h).1.
Proof.
  revert h; induction vs as [|v vs IH]; intros h; cbn [enrichValues];
    [apply heap_incl_refl|].
  destruct (toInt64 v) as [id|]; [|apply IH].
  pose proof (alloc_incl h (personEntry pm id)) as Ha.
  destruct (alloc h (personEntry pm id)) as [h1 l]; simpl in Ha.
  specialize (IH h1).
  destruct (enrichValues vs pm h1) as [h2 ls]; simpl in *.
  eapply heap_incl_trans; eauto.
Qed.

Lemma enrichValues_length vs pm h :
  length (enrichValues vs pm h).2 = length (omap toInt64 vs).
Proof.
  revert h; induction vs as [|v vs IH]; intros h; cbn [enrichValues omap list_omap]; [done|].
  destruct (toInt64 v) as [id|]; [|apply IH].
  destruct (alloc h (personEntry pm id)) as [h1 l].
  specialize (IH h1). destruct (enrichValues vs pm h1) as [h2 ls]. simpl in *. lia.
Qed.

(** Every element that converts to int64 gives one entry map, in order,
    carrying [person_id] and, exactly when the id resolves, [person_name]. *)
Lemma enrichValues_entries vs pm h :
  Forall2 (fun id l => exists e, (enrichValues vs pm h).1 !! l = Some e /\
             e !! "person_id" = Some (AInt64 id) /\
             e !! "person_name" = ((fun p => AString (pi_PersonName p)) <$> pm !! id))
          (omap toInt64 vs) (enrichValues vs pm h).2.
Proof.
  revert h; induction vs as [|v vs IH]; intros h; cbn [enrichValues omap list_omap]; [constructor|].
  destruct (toInt64 v) as [id|]; [|apply IH].
  pose proof (alloc_new h (personEntry pm id)) as [_ Hnew].
  destruct (alloc h (personEntry pm id)) as [h1 l]. simpl in Hnew.
  pose proof (enrichValues_incl vs pm h1) as Hinc.
  specialize (IH h1).
  destruct (enrichValues vs pm h1) as [h2 ls]. simpl in *.
  constructor; [|exact IH].
  exists (personEntry pm id); split; [apply Hinc, Hnew|].
  unfold personEntry; destruct (pm !! id) as [p|]; simpl.
  - split; [rewrite lookup_insert_ne by done; apply lookup_singleton_eq|].
    apply lookup_insert_eq.
  - split; [apply lookup_singleton_eq|]. rewrite lookup_singleton_ne; done.
Qed.

Lemma heap_incl_entry pm h h' id l : heap_incl h h' -> entry_for pm h id l -> entry_for pm h' id l.
Proof. intros Hinc (e & He & H1 & H2). exists e; auto. Qed.

Lemma enrichValues_fresh vs pm h : Forall (fun l => h !! l = None) (enrichValues vs pm h).2.
Proof.
  revert h; induction vs as [|v vs IH]; intros h; cbn [enrichValues]; [constructor|].
  destruct (toInt64 v) as [id|]; [|apply IH].
  pose proof (alloc_new h (personEntry pm id)) as [Hnone _].
  pose proof (alloc_incl h (personEntry pm id)) as Hinc.
  destruct (alloc h (personEntry pm id)) as [h1 l]; simpl in *.
  specialize (IH h1).
  destruct (enrichValues vs pm h1) as [h2 ls]; simpl in *.
  constructor; [exact Hnone|].
  eapply Forall_impl; [exact IH|]. simpl. intros l' Hl'.
  destruct (h !! l') as [x|] eqn:Hx; [|done].
  rewrite (Hinc _ _ Hx) in Hl'. discriminate.
Qed.

Lemma enrichPersonIDsField_step e f pm h :
  field_step pm e f h (enrichPersonIDsField e f pm h).
Proof.
  split.
  - intros l x Hne Hx. unfold enrichPersonIDsField.
    destruct (h !! e ≫= (fun m => m !! f)) as [[q|z|z|str|b| |vs|l'|ls]|]; try exact Hx.
    pose proof (enrichValues_incl vs pm h) as Hinc.
    destruct (enrichValues vs pm h) as [h1 ls]; simpl in Hinc.
    rewrite lookup_alter_ne by congruence. apply Hinc, Hx.
  - intros m Hm. unfold enrichPersonIDsField. rewrite Hm. cbn [mbind option_bind].
    destruct (m !! f) as [[q|z|z|str|b| |vs|l'|ls]|] eqn:Hf;
      try (exists m; rewrite Hm; split; [done|]; split; [done|]; rewrite Hf; done).
    pose proof (enrichValues_incl vs pm h) as Hinc.
    pose proof (enrichValues_entries vs pm h) as Hent.
    pose proof (enrichValues_fresh vs pm h) as Hfr.
    destruct (enrichValues vs pm h) as [h1 ls]; simpl in *.
    exists (<[f := AMapSlice ls]> m).
    split; [rewrite lookup_alter_eq, (Hinc _ _ Hm); done|].
    split; [intros k Hk; rewrite lookup_insert_ne; congruence|].
    exists ls; split; [apply lookup_insert_eq|].
    assert (Hfrm : forall l x, l <> e -> h1 !! l = Some x ->
              alter (insert f (AMapSlice ls)) e h1 !! l = Some x)
      by (intros l x Hle Hx; rewrite lookup_alter_ne by congruence; exact Hx).
    revert Hfrm. generalize (alter (insert f (AMapSlice ls)) e h1). intros h2 Hfrm.
    clear Hf. induction Hent as [|id l ids ls' Hl Hrest IHe]; [constructor|].
    inversion Hfr as [|? ? Hln Hfr']; subst.
    assert (Hle : l <> e) by congruence.
    constructor; [|apply IHe; exact Hfr'].
    split; [exact Hle|].
    destruct Hl as (en & Hen & H1 & H2). exists en. auto.
Qed.

Lemma forall2_drop_ne pm h e ids ls :
  Forall2 (fun id l => l <> e /\ entry_for pm h id l) ids ls -> Forall2 (entry_for pm h) ids ls.
Proof. intros H. eapply Forall2_impl; [exact H|]. intros ? ? []; auto. Qed.

Lemma forall2_lift pm h h' e ids ls :
  (forall l x, l <> e -> h !! l = Some x -> h' !! l = Some x) ->
  Forall2 (fun id l => l <> e /\ entry_for pm h id l) ids ls ->
  Forall2 (fun id l => l <> e /\ entry_for pm h' id l) ids ls.
Proof.
  intros Hf H. eapply Forall2_impl; [exact H|].
  intros id l [Hne (x & Hx & H1 & H2)]. split; [done|]. exists x; auto.
Qed.

Lemma eqb_neq_false (s1 s2 : string) : s1 <> s2 -> String.eqb s1 s2 = false.
Proof. apply String.eqb_neq. Qed.

(** The shape of [enrichTimelineDetail] on a non-nil detail: a fresh map,
    the heap otherwise only grows, and each field is either rewritten
    (a [[]interface{}] in a field the type owns) or copied. *)
Lemma enrichTimelineDetail_shape t d pm h m :
  h !! d = Some m ->
  exists e m',
    (enrichTimelineDetail t (Some d) pm h).2 = AMapRef e /\
    h !! e = None /\
    (enrichTimelineDetail t (Some d) pm h).1 !! e = Some m' /\
    heap_incl h (enrichTimelineDetail t (Some d) pm h).1 /\
    (forall f, match m !! f with
       | Some (AIfaceSlice vs) =>
           if owns_field t f then exists ls, m' !! f = Some (AMapSlice ls) /\
             Forall2 (entry_for pm (enrichTimelineDetail t (Some d) pm h).1) (omap toInt64 vs) ls
           else m' !! f = m !! f
       | _ => m' !! f = m !! f
       end).
Proof.
  intros Hd. unfold enrichTimelineDetail, copyMap. rewrite Hd.
  change (default ∅ (Some m)) with m.
  pose proof (alloc_new h m) as [Hn Hs].
  pose proof (alloc_incl h m) as Hinc.
  destruct (alloc h m) as [h1 e]; simpl in *.
  assert (Hne : forall l x, h !! l = Some x -> l <> e) by (intros l x Hx ->; congruence).
  destruct (String.eqb t "i_notify") eqn:E1.
  - apply String.eqb_eq in E1; subst t.
    destruct (enrichPersonIDsField_step e "to" pm h1) as [Hfr Hat].
    destruct (Hat m Hs) as (m' & Hm' & Hoth & Hto).
    exists e, m'. split; [done|]. split; [done|]. split; [done|]. split.
    + intros l x Hx. apply Hfr; [eapply Hne; eauto|apply Hinc, Hx].
    + intros f. destruct (decide (f = "to")) as [->|Hf].
      * revert Hto. destruct (m !! "to") as [[]|]; intros Hto; try exact Hto.
        destruct Hto as (ls & H1 & H2). exists ls. split; [done|].
        eapply forall2_drop_ne; eauto.
      * assert (Hown : owns_field "i_notify" f = false)
          by (unfold owns_field; rewrite (eqb_neq_false f "to" Hf); reflexivity).
        rewrite (Hoth f Hf), Hown. destruct (m !! f) as [[]|]; reflexivity.
  - destruct (String.eqb t "i_assign" || String.eqb t "i_a_rspd") eqn:E2.
    + destruct (enrichPersonIDsField_step e "to" pm h1) as [Hfr1 Hat1].
      destruct (Hat1 m Hs) as (m1 & Hm1 & Hoth1 & Hto1).
      set (h2 := enrichPersonIDsField e "to" pm h1) in *.
      destruct (enrichPersonIDsField_step e "person_ids" pm h2) as [Hfr2 Hat2].
      destruct (Hat2 m1 Hm1) as (m2 & Hm2 & Hoth2 & Hpid2).
      exists e, m2. split; [done|]. split; [done|]. split; [done|]. split.
      * intros l x Hx. apply Hfr2; [eapply Hne; eauto|].
        apply Hfr1; [eapply Hne; eauto|apply Hinc, Hx].
      * intros f.
        assert (Hown : owns_field t f = (String.eqb f "to" || String.eqb f "person_ids"))
          by (unfold owns_field; rewrite E1, E2; reflexivity).
        rewrite Hown.
        destruct (decide (f = "to")) as [->|Hf1].
        -- rewrite (Hoth2 "to") by done.
           revert Hto1. destruct (m !! "to") as [[]|]; intros Hto1; try exact Hto1.
           destruct Hto1 as (ls & H1 & H2). exists ls. split; [done|].
           eapply forall2_drop_ne, forall2_lift; eauto.
        -- destruct (decide (f = "person_ids")) as [->|Hf2].
           ++ rewrite (Hoth1 "person_ids") in Hpid2 by done.
              revert Hpid2. destruct (m !! "person_ids") as [[]|]; intros Hpid2; try exact Hpid2.
              destruct Hpid2 as (ls & H1 & H2). exists ls. split; [done|].
              eapply forall2_drop_ne; eauto.
           ++ rewrite (Hoth2 f Hf2), (Hoth1 f Hf1).
              rewrite (eqb_neq_false f "to" Hf1), (eqb_neq_false f "person_ids" Hf2).
              destruct (m !! f) as [[]|]; reflexivity.
    + exists e, m. split; [done|]. split; [done|]. split; [done|]. split.
      * intros l x Hx. apply Hinc, Hx.
      * intros f.
        assert (Hown : owns_field t f = false)
          by (unfold owns_field; rewrite E1, E2; reflexivity).
        rewrite Hown. destruct (m !! f) as [[]|]; reflexivity.
Qed.

Lemma not_bearing_owns t f : ~ person_bearing t -> owns_field t f = false.
Proof.
  intros Hnb. unfold owns_field.
  rewrite (eqb_neq_false t "i_notify"), (eqb_neq_false t "i_assign"),
    (eqb_neq_false t "i_a_rspd"); [reflexivity| |  |];
    intros ->; apply Hnb; unfold person_bearing; auto.
Qed.

Lemma enrichTimelineDetail_copy_unchanged t d pm h m :
  h !! d = Some m -> ~ person_bearing t ->
  exists e, (enrichTimelineDetail t (Some d) pm h).2 = AMapRef e /\
            (enrichTimelineDetail t (Some d) pm h).1 !! e = Some m.
Proof.
  intros Hd Hnb.
  destruct (enrichTimelineDetail_shape t d pm h m Hd) as (e & m' & Hr & _ & He & _ & Hf).
  exists e. split; [exact Hr|]. rewrite He. f_equal.
  apply map_eq. intros f. specialize (Hf f).
  rewrite (not_bearing_owns t f Hnb) in Hf.
  destruct (m !! f) as [[]|]; exact Hf.
Qed.

(** C7: for every event type and every non-nil detail payload at [d],
    [enrichTimelineDetail] leaves every map of the heap unchanged (in
    particular the input payload), returns a fresh map, and, for a type
    without person-bearing fields (such as [i_ack] or an unknown type),
    the returned map has exactly the entries of the input payload. *)
Theorem enrichTimelineDetail_preserves_input t d pm h m :
  h !! d = Some m ->
  heap_incl h (enrichTimelineDetail t (Some d) pm h).1 /\
  (exists e, (enrichTimelineDetail t (Some d) pm h).2 = AMapRef e /\ h !! e = None) /\
  (~ person_bearing t ->
     exists e, (enrichTimelineDetail t (Some d) pm h).2 = AMapRef e /\
               (enrichTimelineDetail t (Some d) pm h).1 !! e = Some m).
Proof.
  intros Hd.
  destruct (enrichTimelineDetail_shape t d pm h m Hd) as (e & m' & Hr & Hn & _ & Hinc & _).
  split; [exact Hinc|]. split; [exists e; auto|].
  intros Hnb. apply enrichTimelineDetail_copy_unchanged; assumption.
Qed.

Lemma enrichTimelineDetail_preserves_input_witness :
  let h : heap := {[ 1%positive := {[ "incident_id" := AString "inc-1" ]} ]} in
  h !! 1%positive = Some {[ "incident_id" := AString "inc-1" ]} /\
  heap_incl h (enrichTimelineDetail "i_ack" (Some 1%positive) ∅ h).1.
Proof.
  intros h. split; [reflexivity|].
  apply (enrichTimelineDetail_preserves_input "i_ack" 1%positive ∅ h
           {[ "incident_id" := AString "inc-1" ]}).
  reflexivity.
Defined.

(** C8 (amended): for every event type and payload, a person-bearing
    field whose value is not a [[]interface{}] list is left as it is (and
    nothing fails); a [[]interface{}] list in a field the type owns is
    always rewritten into one entry map per element that converts to
    int64, in order, whatever the other elements are. *)
Theorem enrichTimelineDetail_malformed_field t d pm h m f :
  h !! d = Some m ->
  exists e m',
    (enrichTimelineDetail t (Some d) pm h).2 = AMapRef e /\
    (enrichTimelineDetail t (Some d) pm h).1 !! e = Some m' /\
    ((forall vs, m !! f <> Some (AIfaceSlice vs)) -> m' !! f = m !! f) /\
    (forall vs, m !! f = Some (AIfaceSlice vs) -> owns_field t f = true ->
       exists ls, m' !! f = Some (AMapSlice ls) /\
         Forall2 (entry_for pm (enrichTimelineDetail t (Some d) pm h).1) (omap toInt64 vs) ls).
Proof.
  intros Hd.
  destruct (enrichTimelineDetail_shape t d pm h m Hd) as (e & m' & Hr & _ & He & _ & Hf).
  exists e, m'. split; [exact Hr|]. split; [exact He|]. specialize (Hf f). split.
  - intros Hns. destruct (m !! f) as [[]|]; try exact Hf. exfalso; eapply Hns; reflexivity.
  - intros vs Hvs Hown. rewrite Hvs, Hown in Hf. exact Hf.
Qed.

Lemma enrichTimelineDetail_malformed_field_witness :
  let h : heap := {[ 1%positive := {[ "to" := AString "ops-team" ]} ]} in
  h !! 1%positive = Some {[ "to" := AString "ops-team" ]} /\
  exists e m', (enrichTimelineDetail "i_notify" (Some 1%positive) ∅ h).2 = AMapRef e /\
    (enrichTimelineDetail "i_notify" (Some 1%positive) ∅ h).1 !! e = Some m' /\
    (m' !! "to" = Some (AString "ops-team")).
Proof.
  intros h. split; [reflexivity|].
  destruct (enrichTimelineDetail_malformed_field "i_notify" 1%positive ∅ h
              {[ "to" := AString "ops-team" ]} "to") as (e & m' & H1 & H2 & H3 & _);
    [reflexivity|].
  exists e, m'. split; [exact H1|]. split; [exact H2|].
  rewrite H3; [reflexivity|]. intros vs; discriminate.
Defined.

(** C8, counterexample: "to" holds a list of strings, which is not a list
    of numeric identifiers; the field is still rewritten, to an empty list
    of entry maps. *)
Lemma enrichTimelineDetail_string_list_rewritten :
  let h : heap := {[ 1%positive := {[ "to" := AIfaceSlice [AString "x"] ]} ]} in
  exists e m', (enrichTimelineDetail "i_notify" (Some 1%positive) ∅ h).2 = AMapRef e /\
    (enrichTimelineDetail "i_notify" (Some 1%positive) ∅ h).1 !! e = Some m' /\
    m' !! "to" = Some (AMapSlice []) /\
    m' !! "to" <> Some (AIfaceSlice [AString "x"]).
Proof.
  exists 2%positive, {[ "to" := AMapSlice [] ]}.
  split; [reflexivity|]. split; [vm_compute; reflexivity|].
  split; [reflexivity|]. discriminate.
Qed.

(** C4: the spec's scenario.  An [i_assign] item with detail
    {"to": [5, 6]} (JSON numbers), enriched with only 5 |-> Bob, gives
    the detail {"to": [{person_id: 5, person_name: "Bob"}, {person_id: 6}]}:
    the rewritten field is a list of two entry maps, in order. *)
Theorem timeline_assign_scenario :
  exists e l5 l6,
    map te_Detail (enrichTimelineItems [assign_item] {[ 5 := bob ]} assign_heap).2 = [AMapRef e] /\
    (enrichTimelineItems [assign_item] {[ 5 := bob ]} assign_heap).1 !! e =
      Some {[ "to" := AMapSlice [l5; l6] ]} /\
    (enrichTimelineItems [assign_item] {[ 5 := bob ]} assign_heap).1 !! l5 =
      Some {[ "person_id" := AInt64 5; "person_name" := AString "Bob" ]} /\
    (enrichTimelineItems [assign_item] {[ 5 := bob ]} assign_heap).1 !! l6 =
      Some {[ "person_id" := AInt64 6 ]}.
Proof.
  exists 2%positive, 3%positive, 4%positive.
  split; [reflexivity|]. split; [vm_compute; reflexivity|].
  split; vm_compute; reflexivity.
Qed.

(* ------------------------------------------------------------------ *)
(** ** Timeline id collector *)

Lemma extractPersonIDsFromDetail_nonzero detail f acc :
  Forall (fun x => x <> 0) acc ->
  Forall (fun x => x <> 0) (extractPersonIDsFromDetail detail f acc).
Proof.
  unfold extractPersonIDsFromDetail.
  destruct (detail !! f) as [[q|z|z|str|b| |vs|l|ls]|]; auto.
  revert acc; induction vs as [|v vs IH]; intros acc Hacc; simpl; [exact Hacc|].
  apply IH. destruct (toInt64 v) as [id|]; [|exact Hacc].
  case_decide; [exact Hacc|]. apply Forall_app; auto.
Qed.

(** C2 (amended): [collectTimelinePersonIDs] is a total function of the
    items and the heap of their detail maps (no I/O, no error result) and
    never returns the zero identifier; it does not deduplicate (that is
    left to [fetchPersonInfos]). *)
Theorem collectTimelinePersonIDs_nonzero h items :
  Forall (fun x => x <> 0) (collectTimelinePersonIDs h items).
Proof.
  unfold collectTimelinePersonIDs.
  assert (H0 : Forall (fun x : Z => x <> 0) []) by constructor.
  revert H0. generalize (@nil Z).
  induction items as [|item items IH]; intros acc Hacc; simpl; [exact Hacc|].
  apply IH. unfold collectItemPersonIDs.
  assert (H1 : Forall (fun x => x <> 0)
                 (if decide (rt_PersonID item = 0) then acc else acc ++ [rt_PersonID item])).
  { case_decide; [exact Hacc|]. apply Forall_app; auto. }
  destruct (rt_Detail item) as [l|]; [|exact H1].
  destruct (String.eqb (rt_Type item) "i_assign" || String.eqb (rt_Type item) "i_a_rspd").
  - apply extractPersonIDsFromDetail_nonzero, extractPersonIDsFromDetail_nonzero, H1.
  - destruct (String.eqb (rt_Type item) "i_notify");
      [apply extractPersonIDsFromDetail_nonzero|]; exact H1.
Qed.

(** C2, counterexample: two [i_ack] items by operator 7 give the list
    [7; 7], which is not duplicate-free. *)
Lemma collectTimelinePersonIDs_keeps_duplicates :
  let item := {| rt_Type := "i_ack"; rt_CreatedAt := 1; rt_PersonID := 7; rt_Detail := None |} in
  collectTimelinePersonIDs ∅ [item; item] = [7; 7] /\
  ~ NoDup (collectTimelinePersonIDs ∅ [item; item]).
Proof.
  intros item.
  assert (E : collectTimelinePersonIDs ∅ [item; item] = [7; 7]) by reflexivity.
  split; [exact E|]. rewrite E, NoDup_cons. intros [Hin _]. apply Hin. left.
Qed.

(* ------------------------------------------------------------------ *)
(** ** Batched fetchers *)

Lemma dedupIDs_acc_spec (ids : list Z) (acc : gset Z) (x : Z) :
  x ∈ fold_left (fun (idSet : gset Z) id =>
                  if decide (id = 0) then idSet else {[ id ]} ∪ idSet) ids acc
  <-> x ∈ acc \/ (x ∈ ids /\ x <> 0).
Proof.
  revert acc; induction ids as [|id ids IH]; intros acc; simpl.
  - split; [auto|]. intros [H|[H _]]; [exact H|]. apply elem_of_nil in H; contradiction.
  - rewrite IH. rewrite elem_of_cons. case_decide as Hz.
    + subst id. split; [intros [H|H]; [auto|tauto]|].
      intros [H|[[H|H] Hne]]; [auto|congruence|auto].
    + rewrite elem_of_union, elem_of_singleton.
      split; [intros [[H|H]|H]; subst; tauto|].
      intros [H|[[H|H] Hne]]; subst; tauto.
Qed.

Lemma dedupIDs_spec ids x : x ∈ dedupIDs ids <-> x ∈ ids /\ x <> 0.
Proof.
  unfold dedupIDs. rewrite dedupIDs_acc_spec.
  split; [intros [H|H]; [apply elem_of_empty in H; contradiction|exact H]|auto].
Qed.

Section FetchProofs.
Context {Item Info : Type}.
Variable range_ids : gset Z -> list Z.
(** Go ranges over every element of the set exactly once. *)
Hypothesis range_ids_perm : forall s, range_ids s ≡ₚ elements s.

Lemma range_ids_elem s x : x ∈ range_ids s <-> x ∈ s.
Proof. rewrite (range_ids_perm s). apply elem_of_elements. Qed.

Lemma fetchInfos_zeros what path key (send : Request -> Outcome Item)
    (entry : Item -> option (Z * Info)) ids :
  Forall (fun id => id = 0) ids ->
  fetchInfos range_ids what path key send entry ids = ([], inr ∅).
Proof.
  intros Hz. destruct ids as [|id0 ids]; [reflexivity|].
  cbn [fetchInfos].
  destruct (range_ids (dedupIDs (id0 :: ids))) as [|x xs] eqn:E; [reflexivity|].
  exfalso.
  assert (Hx : x ∈ range_ids (dedupIDs (id0 :: ids))) by (rewrite E; left).
  apply range_ids_elem, dedupIDs_spec in Hx as [Hin Hne].
  rewrite Forall_forall in Hz. apply Hne, Hz, Hin.
Qed.

Lemma fetchInfos_request what path key (send : Request -> Outcome Item)
    (entry : Item -> option (Z * Info)) ids :
  (exists x, x ∈ ids /\ x <> 0) ->
  exists req, (fetchInfos range_ids what path key send entry ids).1 = [req] /\
    req_path req = path /\ req_ids req = range_ids (dedupIDs ids).
Proof.
  intros (x & Hin & Hne). destruct ids as [|id0 ids]; [apply elem_of_nil in Hin; contradiction|].
  cbn [fetchInfos].
  destruct (range_ids (dedupIDs (id0 :: ids))) as [|y ys] eqn:E.
  - exfalso. assert (Hx : x ∈ range_ids (dedupIDs (id0 :: ids))).
    { apply range_ids_elem, dedupIDs_spec. auto. }
    rewrite E in Hx. apply elem_of_nil in Hx. exact Hx.
  - eexists. split; [reflexivity|]. split; reflexivity.
Qed.
End FetchProofs.

(** C5: for every entity kind, resolving an identifier list that is
    empty or holds only zero identifiers returns an empty mapping and no
    error, and issues no request. *)
Theorem fetch_zero_ids_short_circuit range_ids c ids :
  (forall s, range_ids s ≡ₚ elements s) ->
  Forall (fun id => id = 0) ids ->
  fetchPersonInfos range_ids c ids = ([], inr ∅) /\
  fetchTeamInfos range_ids c ids = ([], inr ∅) /\
  fetchScheduleInfos range_ids c ids = ([], inr ∅) /\
  fetchChannelInfos range_ids c ids = ([], inr ∅).
Proof.
  intros Hperm Hz.
  unfold fetchPersonInfos, fetchTeamInfos, fetchScheduleInfos, fetchChannelInfos.
  repeat split; apply fetchInfos_zeros; assumption.
Qed.

Lemma fetch_zero_ids_short_circuit_witness :
  fetchPersonInfos elements downClient [0; 0] = ([], inr ∅) /\
  fetchTeamInfos elements downClient [0; 0] = ([], inr ∅) /\
  fetchScheduleInfos elements downClient [0; 0] = ([], inr ∅) /\
  fetchChannelInfos elements downClient [0; 0] = ([], inr ∅).
Proof.
  apply fetch_zero_ids_short_circuit.
  - intros s; reflexivity.
  - repeat constructor.
Defined.

(** C6 (amended): for every identifier list holding at least one nonzero
    identifier, the batch resolver issues exactly one request, and the
    identifiers it sends are duplicate-free and are exactly the nonzero
    identifiers of the input; for a non-empty list of only zeros it
    issues no request. *)
Theorem fetchInfos_one_deduplicated_request {Item Info : Type} range_ids what path key
    (send : Request -> Outcome Item) (entry : Item -> option (Z * Info)) ids :
  (forall s, range_ids s ≡ₚ elements s) ->
  ((exists x, x ∈ ids /\ x <> 0) ->
   exists req, (fetchInfos range_ids what path key send entry ids).1 = [req] /\
     req_path req = path /\ NoDup (req_ids req) /\
     (forall x, x ∈ req_ids req <-> x ∈ ids /\ x <> 0)) /\
  (ids <> [] -> Forall (fun id => id = 0) ids ->
   (fetchInfos range_ids what path key send entry ids).1 = []).
Proof.
  intros Hperm. split.
  - intros Hx.
    destruct (fetchInfos_request range_ids Hperm what path key send entry ids Hx)
      as (req & H1 & H2 & H3).
    exists req. split; [exact H1|]. split; [exact H2|]. rewrite H3. split.
    + rewrite (Hperm _). apply NoDup_elements.
    + intros x. rewrite (range_ids_elem range_ids Hperm). apply dedupIDs_spec.
  - intros _ Hz. rewrite (fetchInfos_zeros range_ids Hperm what path key send entry ids Hz).
    reflexivity.
Qed.

Lemma fetchInfos_one_deduplicated_request_witness :
  (exists req, (fetchPersonInfos elements downClient [7; 0; 7; 9]).1 = [req] /\
     req_path req = "/person/infos" /\ NoDup (req_ids req) /\
     (forall x, x ∈ req_ids req <-> x ∈ [7; 0; 7; 9] /\ x <> 0)) /\
  (fetchPersonInfos elements downClient [0; 0]).1 = [].
Proof.
  split.
  - apply (fetchInfos_one_deduplicated_request elements).
    + intros s; reflexivity.
    + exists 7. split; [left|lia].
  - apply (fetchInfos_one_deduplicated_request elements).
    + intros s; reflexivity.
    + discriminate.
    + repeat constructor.
Defined.

(** C6, counterexample: [0; 0] is non-empty and holds a duplicate and
    zero values, yet no request at all is issued for it. *)
Lemma fetch_only_zeros_no_request :
  (fetchPersonInfos elements downClient [0; 0]).1 = [] /\
  ~ exists req, (fetchPersonInfos elements downClient [0; 0]).1 = [req].
Proof.
  split; [reflexivity|]. intros [req H]. discriminate H.
Qed.

(* ------------------------------------------------------------------ *)
(** ** Joins *)

Lemma shows_match {A : Type} (m : gmap Z A) (name_of : A -> string) id :
  shows m name_of id (match m !! id with Some x => name_of x | None => "" end).
Proof. split; [intros x Hx; rewrite Hx; reflexivity|intros Hn; rewrite Hn; reflexivity]. Qed.

Lemma enrichResponder_spec pm r :
  er_PersonID (enrichResponder pm r) = rr_PersonID r /\
  shows pm pi_PersonName (rr_PersonID r) (er_PersonName (enrichResponder pm r)).
Proof.
  unfold enrichResponder. split; [destruct (pm !! rr_PersonID r); reflexivity|].
  pose proof (shows_match pm pi_PersonName (rr_PersonID r)) as H.
  destruct (pm !! rr_PersonID r); exact H.
Qed.

Lemma responders_elementwise pm cm raw :
  Forall2 (fun r er => er_PersonID er = rr_PersonID r /\
                       shows pm pi_PersonName (rr_PersonID r) (er_PersonName er))
          (ri_Responders raw) (ei_Responders (buildEnrichedIncident pm cm raw)).
Proof.
  unfold buildEnrichedIncident. destruct (pm !! ri_CreatorID raw); simpl;
  (induction (ri_Responders raw) as [|r rs IH]; [constructor|];
   constructor; [apply enrichResponder_spec|exact IH]).
Qed.

Lemma buildEnrichedIncident_creator pm cm raw :
  ei_CreatorName (buildEnrichedIncident pm cm raw) =
  match pm !! ri_CreatorID raw with Some p => pi_PersonName p | None => "" end.
Proof. unfold buildEnrichedIncident. destruct (pm !! ri_CreatorID raw); reflexivity. Qed.

Lemma buildEnrichedIncident_closer pm cm raw :
  ei_CloserName (buildEnrichedIncident pm cm raw) =
  match pm !! ri_CloserID raw with Some p => pi_PersonName p | None => "" end.
Proof. unfold buildEnrichedIncident. destruct (pm !! ri_CreatorID raw); reflexivity. Qed.

Lemma buildEnrichedIncident_channel pm cm raw :
  ei_ChannelName (buildEnrichedIncident pm cm raw) =
  match cm !! ri_ChannelID raw with Some ch => ci_ChannelName ch | None => "" end.
Proof. unfold buildEnrichedIncident. destruct (pm !! ri_CreatorID raw); reflexivity. Qed.

Lemma buildEnrichedIncident_copies pm cm raw :
  copies_incident raw (buildEnrichedIncident pm cm raw).
Proof.
  unfold copies_incident, buildEnrichedIncident.
  destruct (pm !! ri_CreatorID raw); repeat split.
Qed.

(** C3: against any resolved mappings, the creator, closer, channel and
    responder display names of an enriched incident are the resolved
    record's name when the identifier is in the mapping and the empty
    string when it is not, and the raw identifier is kept as it is. *)
Theorem buildEnrichedIncident_unresolved_pass_through pm cm raw :
  ei_CreatorID (buildEnrichedIncident pm cm raw) = ri_CreatorID raw /\
  shows pm pi_PersonName (ri_CreatorID raw) (ei_CreatorName (buildEnrichedIncident pm cm raw)) /\
  ei_CloserID (buildEnrichedIncident pm cm raw) = ri_CloserID raw /\
  shows pm pi_PersonName (ri_CloserID raw) (ei_CloserName (buildEnrichedIncident pm cm raw)) /\
  ei_ChannelID (buildEnrichedIncident pm cm raw) = ri_ChannelID raw /\
  shows cm ci_ChannelName (ri_ChannelID raw) (ei_ChannelName (buildEnrichedIncident pm cm raw)) /\
  Forall2 (fun r er => er_PersonID er = rr_PersonID r /\
                       shows pm pi_PersonName (rr_PersonID r) (er_PersonName er))
          (ri_Responders raw) (ei_Responders (buildEnrichedIncident pm cm raw)).
Proof.
  pose proof (buildEnrichedIncident_copies pm cm raw) as
    (_ & _ & _ & _ & _ & _ & _ & _ & Hch & Hcr & Hcl & _).
  rewrite buildEnrichedIncident_creator, buildEnrichedIncident_closer,
    buildEnrichedIncident_channel.
  split; [exact Hcr|]. split; [apply shows_match|].
  split; [exact Hcl|]. split; [apply shows_match|].
  split; [exact Hch|]. split; [apply shows_match|].
  apply responders_elementwise.
Qed.

(** C1 (amended): in [enrichIncidents] the channel branch is mandatory:
    when its lookup fails while the person lookup succeeds, the call
    returns that error and no incidents.  In the escalation-rule handler
    the channel branch degrades: a failed channel lookup leaves every
    rule's channel name blank and the rules are still returned. *)
Theorem channel_failure_policy range_roles range_ids c left_first :
  (forall raws pm e,
     (fetchPersonInfos range_ids c (collectIncidentIDs raws).1).2 = inr pm ->
     (fetchChannelInfos range_ids c (collectIncidentIDs raws).2).2 = inl e ->
     (enrichIncidents range_ids c left_first raws).2 = inl e) /\
  (forall channelID rules e,
     (fetchChannelInfos range_ids c [channelID]).2 = inl e ->
     map erl_ChannelName (enrichEscalationRules range_roles range_ids c channelID rules).2 =
     map (fun _ => "") rules).
Proof.
  split.
  - intros raws pm e Hp Hc. unfold enrichIncidents.
    destruct (collectIncidentIDs raws) as [pids cids]. simpl in Hp, Hc.
    destruct (fetchPersonInfos range_ids c pids) as [rq1 pr]. simpl in Hp. subst pr.
    destruct (fetchChannelInfos range_ids c cids) as [rq2 cr]. simpl in Hc. subst cr.
    reflexivity.
  - intros channelID rules e Hc. unfold enrichEscalationRules.
    destruct (collectRuleIDs range_roles rules) as [[pids tids] sids].
    destruct (fetchPersonInfos range_ids c pids) as [rq1 pr].
    destruct (fetchTeamInfos range_ids c tids) as [rq2 tr].
    destruct (fetchScheduleInfos range_ids c sids) as [rq3 sr].
    destruct (fetchChannelInfos range_ids c [channelID]) as [rq4 cr]. simpl in Hc. subst cr.
    simpl. rewrite map_map. apply map_ext. intros r. reflexivity.
Qed.

Lemma channel_failure_policy_witness :
  (enrichIncidents elements channelDownClient true [incident7]).2 =
    inl (ErrFetch "channel information" "connection reset by peer") /\
  map erl_ChannelName
      (enrichEscalationRules (fun m => map_to_list m) elements channelDownClient 3 [rule3]).2
    = [""].
Proof.
  destruct (channel_failure_policy (fun m => map_to_list m) elements channelDownClient true)
    as [H1 H2].
  split.
  - apply (H1 [incident7] {[ 7 := alice ]}); vm_compute; reflexivity.
  - apply (H2 3 [rule3] (ErrFetch "channel information" "connection reset by peer")).
    vm_compute; reflexivity.
Defined.

(** C1, counterexample: the person lookup of [incident7] succeeds, its
    channel lookup fails, and [enrichIncidents] returns an error. *)
Lemma enrichIncidents_channel_down_fails :
  (fetchPersonInfos elements channelDownClient (collectIncidentIDs [incident7]).1).2
    = inr {[ 7 := alice ]} /\
  (fetchChannelInfos elements channelDownClient (collectIncidentIDs [incident7]).2).2
    = inl (ErrFetch "channel information" "connection reset by peer") /\
  (enrichIncidents elements channelDownClient true [incident7]).2
    = inl (ErrFetch "channel information" "connection reset by peer").
Proof. split; [|split]; vm_compute; reflexivity. Qed.

(* ------------------------------------------------------------------ *)
(** ** Nested collections *)

Lemma personTarget_spec pm pid :
  pt_PersonID (personTarget pm pid) = pid /\
  shows pm pi_PersonName pid (pt_PersonName (personTarget pm pid)).
Proof.
  unfold personTarget. split; [destruct (pm !! pid); reflexivity|].
  pose proof (shows_match pm pi_PersonName pid) as H.
  destruct (pm !! pid); exact H.
Qed.

Lemma targets_elementwise {B : Type} (f : Z -> B) (P : Z -> B -> Prop) (ids : list Z) :
  (forall id, P id (f id)) -> Forall2 P ids (map f ids).
Proof. intros Hf. induction ids; constructor; auto. Qed.

Lemma schedules_elementwise sm (entries : list (Z * list Z)) :
  Forall2 (fun '(sid, roleIDs) st =>
             st_ScheduleID st = sid /\ st_RoleIDs st = roleIDs /\
             shows sm si_ScheduleName sid (st_ScheduleName st))
          entries
          (map (fun '(sid, roleIDs) => scheduleTarget sm sid roleIDs) entries).
Proof.
  induction entries as [|[sid roles] rest IH]; constructor; [|exact IH].
  split; [reflexivity|]. split; [reflexivity|]. apply shows_match.
Qed.

(** C9 (amended): responders, persons and teams are rebuilt element-wise
    with the lookup-or-leave-blank rule, in the order of the raw list.
    Schedules are rebuilt element-wise too, but in the iteration order of
    the raw [ScheduleToRoleIDs] map, which is only known to be a
    permutation of the map's entries: the output schedule list is a
    permutation of the map's (id, roles) pairs. *)
Theorem nested_collections_elementwise range_roles
    (Hrange : forall m, range_roles m ≡ₚ map_to_list m)
    pm cm tm sm raw t :
  Forall2 (fun r er => er_PersonID er = rr_PersonID r /\
                       shows pm pi_PersonName (rr_PersonID r) (er_PersonName er))
          (ri_Responders raw) (ei_Responders (buildEnrichedIncident pm cm raw)) /\
  Forall2 (fun pid p => pt_PersonID p = pid /\ shows pm pi_PersonName pid (pt_PersonName p))
          (rtg_PersonIDs t) (et_Persons (buildTarget range_roles pm tm sm t)) /\
  Forall2 (fun tid x => tt_TeamID x = tid /\ shows tm ti_TeamName tid (tt_TeamName x))
          (rtg_TeamIDs t) (et_Teams (buildTarget range_roles pm tm sm t)) /\
  Forall2 (fun '(sid, roleIDs) st =>
             st_ScheduleID st = sid /\ st_RoleIDs st = roleIDs /\
             shows sm si_ScheduleName sid (st_ScheduleName st))
          (range_roles (rtg_ScheduleToRoleIDs t))
          (et_Schedules (buildTarget range_roles pm tm sm t)) /\
  map (fun st => (st_ScheduleID st, st_RoleIDs st))
      (et_Schedules (buildTarget range_roles pm tm sm t))
    ≡ₚ map_to_list (rtg_ScheduleToRoleIDs t).
Proof.
  split; [apply responders_elementwise|].
  split; [apply targets_elementwise; apply personTarget_spec|].
  split; [apply targets_elementwise; intros id; split; [reflexivity|apply shows_match]|].
  split; [apply schedules_elementwise|].
  simpl. rewrite map_map.
  rewrite <- (Hrange (rtg_ScheduleToRoleIDs t)).
  erewrite map_ext; [rewrite map_id; reflexivity|]. intros [sid roles]. reflexivity.
Qed.

Lemma nested_collections_elementwise_witness :
  (forall m : gmap Z (list Z), map_to_list m ≡ₚ map_to_list m) /\
  Forall2 (fun pid p => pt_PersonID p = pid /\ shows {[ 7 := alice ]} pi_PersonName pid (pt_PersonName p))
          [7; 9] (et_Persons (buildTarget (fun m => map_to_list m) {[ 7 := alice ]} ∅ ∅ target3)) /\
  map (fun st => (st_ScheduleID st, st_RoleIDs st))
      (et_Schedules (buildTarget (fun m => map_to_list m) {[ 7 := alice ]} ∅ ∅ target3))
    ≡ₚ [(1, []); (2, [4])].
Proof.
  assert (Hr : forall m : gmap Z (list Z), map_to_list m ≡ₚ map_to_list m) by reflexivity.
  destruct (nested_collections_elementwise (fun m => map_to_list m) Hr
              {[ 7 := alice ]} ∅ ∅ ∅ incident7 target3) as (_ & Hp & _ & _ & Hs).
  split; [exact Hr|]. split; [exact Hp|].
  rewrite Hs. vm_compute. apply Permutation_swap.
Defined.

(** C9, counterexample: the schedule map of [target3] has no order of its
    own; two iteration orders, both permutations of its entries, give the
    schedules in different orders. *)
Lemma schedule_order_follows_map_iteration :
  rev (map_to_list (rtg_ScheduleToRoleIDs target3))
    ≡ₚ map_to_list (rtg_ScheduleToRoleIDs target3) /\
  map st_ScheduleID (et_Schedules (buildTarget (fun m => map_to_list m) ∅ ∅ ∅ target3))
    = [2; 1] /\
  map st_ScheduleID (et_Schedules (buildTarget (fun m => rev (map_to_list m)) ∅ ∅ ∅ target3))
    = [1; 2].
Proof.
  split; [apply Permutation_rev|]. split; vm_compute; reflexivity.
Qed.

(* ------------------------------------------------------------------ *)
(** ** One output record per input record *)

Lemma map_buildEnrichedIncident_copies pm cm raws :
  Forall2 copies_incident raws (map (buildEnrichedIncident pm cm) raws).
Proof. induction raws; constructor; [apply buildEnrichedIncident_copies|assumption]. Qed.

Lemma enrichTimelineItems_copies items pm h :
  Forall2 copies_event items (enrichTimelineItems items pm h).2.
Proof.
  revert h. induction items as [|item rest IH]; intros h; [constructor|].
  cbn [enrichTimelineItems].
  destruct (enrichTimelineDetail (rt_Type item) (rt_Detail item) pm h) as [h1 d].
  specialize (IH h1).
  destruct (enrichTimelineItems rest pm h1) as [h2 events]. simpl in *.
  constructor; [repeat split|exact IH].
Qed.

(** C10: when [enrichIncidents] succeeds it returns one enriched incident
    per raw incident, in input order, each copying the raw incident's
    non-display fields; [enrichTimelineItems] returns one event per raw
    item, in input order, each copying type, timestamp and operator id. *)
Theorem enrichment_one_to_one range_ids c left_first raws items pm h :
  (forall outs, (enrichIncidents range_ids c left_first raws).2 = inr outs ->
                Forall2 copies_incident raws outs) /\
  Forall2 copies_event items (enrichTimelineItems items pm h).2.
Proof.
  split; [|apply enrichTimelineItems_copies].
  intros outs Hout. unfold enrichIncidents in Hout.
  destruct (collectIncidentIDs raws) as [pids cids].
  destruct (fetchPersonInfos range_ids c pids) as [rq1 pr].
  destruct (fetchChannelInfos range_ids c cids) as [rq2 cr].
  simpl in Hout. destruct (groupWait left_first pr cr) as [e|[pm' cm']]; [discriminate|].
  injection Hout as <-. apply map_buildEnrichedIncident_copies.
Qed.

Lemma enrichment_one_to_one_witness :
  (enrichIncidents elements opsClient true [incident7]).2 =
    inr (match (enrichIncidents elements opsClient true [incident7]).2 with
         | inr outs => outs | inl _ => [] end) /\
  Forall2 copies_incident [incident7]
    (match (enrichIncidents elements opsClient true [incident7]).2 with
     | inr outs => outs | inl _ => [] end).
Proof.
  split; [vm_compute; reflexivity|].
  apply (proj1 (enrichment_one_to_one elements opsClient true [incident7] [assign_item]
                  {[ 5 := bob ]} assign_heap)).
  vm_compute; reflexivity.
Defined.

(* ------------------------------------------------------------------ *)
(** ** parseCommaSeparatedInts *)

Lemma splitComma_cons s : exists p ps, splitComma s = p :: ps.
Proof.
  destruct s as [|ch rest]; [eexists _, _; reflexivity|]. simpl.
  destruct (Nat.eqb (byteOf ch) 44); [eexists _, _; reflexivity|].
  destruct (splitComma rest); eexists _, _; reflexivity.
Qed.

Lemma splitComma_app s1 s2 :
  splitComma (s1 ++ "," ++ s2)%string = splitComma s1 ++ splitComma s2.
Proof.
  induction s1 as [|ch r IH]; [reflexivity|].
  change (String ch r ++ "," ++ s2)%string with (String ch (r ++ "," ++ s2)%string).
  cbn [splitComma]. rewrite IH.
  destruct (Nat.eqb (byteOf ch) 44); [reflexivity|].
  destruct (splitComma_cons r) as (p & ps & ->). reflexivity.
Qed.

Lemma parseCommaSeparatedInts_parts s :
  parseCommaSeparatedInts s = omap parsePart (splitComma s).
Proof.
  unfold parseCommaSeparatedInts.
  destruct (String.eqb s "") eqn:E.
  { apply String.eqb_eq in E. subst s. reflexivity. }
  assert (Hgen : forall parts acc,
    fold_left (fun result part =>
         if String.eqb (TrimSpace part) "" then result
         else match Atoi (TrimSpace part) with
              | Some id => result ++ [id]
              | None => result
              end) parts acc = acc ++ omap parsePart parts).
  { induction parts as [|part parts IH]; intros acc; [simpl; rewrite app_nil_r; reflexivity|].
    cbn [fold_left]. cbn [omap list_omap]. unfold parsePart at 1. cbn zeta.
    destruct (String.eqb (TrimSpace part) ""); [apply IH|].
    destruct (Atoi (TrimSpace part)); rewrite IH; [rewrite <- app_assoc|]; reflexivity. }
  apply Hgen.
Qed.

Lemma parseCommaSeparatedInts_app s1 s2 :
  parseCommaSeparatedInts (s1 ++ "," ++ s2)%string =
  parseCommaSeparatedInts s1 ++ parseCommaSeparatedInts s2.
Proof.
  rewrite !parseCommaSeparatedInts_parts, splitComma_app. apply omap_app.
Qed.


Lemma digit_char m :
  0 <= m < 10 ->
  digitValue (Ascii.ascii_of_nat (48 + Z.to_nat m)) = m /\
  isDigit (Ascii.ascii_of_nat (48 + Z.to_nat m)) = true.
Proof.
  intros Hm. unfold digitValue, isDigit, byteOf.
  rewrite Ascii.nat_ascii_embedding by lia. split; [lia|].
  apply Bool.andb_true_iff; split; apply Nat.leb_le; lia.
Qed.

Lemma decDigits_fold fuel n acc :
  0 <= n < 10 ^ Z.of_nat fuel ->
  fold_left (fun n ch => n * 10 + digitValue ch) (decDigits fuel n acc) 0 =
  fold_left (fun n ch => n * 10 + digitValue ch) acc n.
Proof.
  revert n acc. induction fuel as [|f IH]; intros n acc Hn.
  - simpl in Hn. replace n with 0 by lia. reflexivity.
  - rewrite Nat2Z.inj_succ, Z.pow_succ_r in Hn by lia.
    pose proof (Z.mod_pos_bound n 10 ltac:(lia)) as Hmod.
    destruct (digit_char (n mod 10) Hmod) as [Hv _].
    cbn [decDigits]. destruct (n <? 10) eqn:E.
    + apply Z.ltb_lt in E. cbn [fold_left]. rewrite Hv, Z.mod_small by lia. f_equal; lia.
    + apply Z.ltb_ge in E. rewrite IH.
      * cbn [fold_left]. rewrite Hv. f_equal.
        pose proof (Z.div_mod n 10 ltac:(lia)). lia.
      * split; [apply Z.div_pos; lia|]. apply Z.div_lt_upper_bound; lia.
Qed.

Lemma decDigits_digits fuel n acc :
  forallb isDigit (decDigits fuel n acc) = forallb isDigit acc.
Proof.
  revert n acc. induction fuel as [|f IH]; intros n acc; [reflexivity|].
  pose proof (Z.mod_pos_bound n 10 ltac:(lia)) as Hmod.
  destruct (digit_char (n mod 10) Hmod) as [_ Hd].
  cbn [decDigits]. destruct (n <? 10); [|rewrite IH]; cbn [forallb]; rewrite Hd; reflexivity.
Qed.

Lemma decDigits_ne fuel n acc : acc <> [] -> decDigits fuel n acc <> [].
Proof.
  revert n acc. induction fuel as [|f IH]; intros n acc Hacc; [exact Hacc|].
  cbn [decDigits]. destruct (n <? 10); [discriminate|]. apply IH. discriminate.
Qed.

Lemma decDigits_S_ne f n acc : decDigits (S f) n acc <> [].
Proof.
  cbn [decDigits]. destruct (n <? 10); [discriminate|]. apply decDigits_ne. discriminate.
Qed.

Lemma isDigit_bounds ch : isDigit ch = true -> (48 <= byteOf ch <= 57)%nat.
Proof. unfold isDigit. intros H. apply Bool.andb_true_iff in H as [H1 H2]. apply Nat.leb_le in H1. apply Nat.leb_le in H2. lia. Qed.

Lemma leadingSpaceLen_zero x r :
  byteOf x = 45%nat \/ isDigit x = true -> leadingSpaceLen (x :: r) = 0%nat.
Proof.
  intros Hx. unfold leadingSpaceLen. cbn [map].
  assert (Hc : (byteOf x = 45 \/ byteOf x = 48 \/ byteOf x = 49 \/ byteOf x = 50 \/
               byteOf x = 51 \/ byteOf x = 52 \/ byteOf x = 53 \/ byteOf x = 54 \/
               byteOf x = 55 \/ byteOf x = 56 \/ byteOf x = 57)%nat).
  { destruct Hx as [Hx|Hx]; [left; exact Hx|]. apply isDigit_bounds in Hx. lia. }
  destruct_or! Hc; rewrite Hc; reflexivity.
Qed.

Lemma trailingSpaceLen_zero l x : isDigit x = true -> trailingSpaceLen (l ++ [x]) = 0%nat.
Proof.
  intros Hx. unfold trailingSpaceLen. rewrite map_app, rev_app_distr. cbn [map rev app].
  apply isDigit_bounds in Hx.
  assert (Hc : (byteOf x = 48 \/ byteOf x = 49 \/ byteOf x = 50 \/
               byteOf x = 51 \/ byteOf x = 52 \/ byteOf x = 53 \/ byteOf x = 54 \/
               byteOf x = 55 \/ byteOf x = 56 \/ byteOf x = 57)%nat) by lia.
  destruct_or! Hc; rewrite Hc; reflexivity.
Qed.

Lemma TrimSpace_unchanged (l : list Ascii.ascii) x r init y :
  l = x :: r -> byteOf x = 45%nat \/ isDigit x = true ->
  l = init ++ [y] -> isDigit y = true ->
  TrimSpace (String.string_of_list_ascii l) = String.string_of_list_ascii l.
Proof.
  intros Hl Hx Hl' Hy. unfold TrimSpace.
  rewrite String.list_ascii_of_string_of_list_ascii.
  assert (Hleft : trimLeftSpace (length l) l = l).
  { rewrite Hl. cbn [length trimLeftSpace]. rewrite leadingSpaceLen_zero by exact Hx. reflexivity. }
  rewrite Hleft. f_equal.
  destruct (length l) as [|k] eqn:Hlen; [reflexivity|].
  cbn [trimRightSpace]. rewrite Hl', trailingSpaceLen_zero by exact Hy. reflexivity.
Qed.

Lemma forallb_last_digit (l : list Ascii.ascii) :
  l <> [] -> forallb isDigit l = true ->
  exists x r init y, l = x :: r /\ isDigit x = true /\ l = init ++ [y] /\ isDigit y = true.
Proof.
  intros Hne Hall. destruct l as [|x r]; [congruence|].
  destruct (exists_last (l := x :: r) ltac:(discriminate)) as (init & y & Hiy).
  apply forallb_forall with (x := x) in Hall as Hx; [|left; reflexivity].
  pose proof Hall as Hall'. rewrite Hiy in Hall'.
  apply forallb_forall with (x := y) in Hall' as Hy; [|apply in_or_app; right; left; reflexivity].
  exists x, r, init, y. auto.
Qed.

Lemma int64_digits_bound n : 0 <= n <= 2 ^ 63 -> 0 <= n < 10 ^ Z.of_nat 64.
Proof.
  intros Hn. assert (Hb : 2 ^ 63 < 10 ^ Z.of_nat 64) by (vm_compute; reflexivity). lia.
Qed.

Lemma decimal_parts_abs z :
  Z.abs z < 10 ^ Z.of_nat 64 ->
  exists D, D <> [] /\ forallb isDigit D = true /\
    fold_left (fun n ch => n * 10 + digitValue ch) D 0 = Z.abs z /\
    String.list_ascii_of_string (decimal z) =
      (if z <? 0 then Ascii.ascii_of_nat 45 :: D else D).
Proof.
  intros Hz. unfold decimal.
  rewrite String.list_ascii_of_string_of_list_ascii.
  destruct (z <? 0) eqn:E.
  - apply Z.ltb_lt in E. exists (decDigits 64 (- z) []).
    split; [apply decDigits_S_ne|].
    split; [rewrite decDigits_digits; reflexivity|].
    split; [|reflexivity].
    rewrite decDigits_fold by lia. simpl. lia.
  - apply Z.ltb_ge in E. exists (decDigits 64 z []).
    split; [apply decDigits_S_ne|].
    split; [rewrite decDigits_digits; reflexivity|].
    split; [|reflexivity].
    rewrite decDigits_fold by lia. simpl. lia.
Qed.

Lemma decimal_parts z :
  int64_range z ->
  exists D, D <> [] /\ forallb isDigit D = true /\
    fold_left (fun n ch => n * 10 + digitValue ch) D 0 = Z.abs z /\
    String.list_ascii_of_string (decimal z) =
      (if z <? 0 then Ascii.ascii_of_nat 45 :: D else D).
Proof.
  intros Hz. apply decimal_parts_abs. unfold int64_range in Hz.
  pose proof (int64_digits_bound (Z.abs z)). lia.
Qed.

Lemma Atoi_decimal z : int64_range z -> Atoi (decimal z) = Some z.
Proof.
  intros Hz. pose proof Hz as Hr. unfold int64_range in Hr.
  destruct (decimal_parts z Hz) as (D & Hne & Hdig & Hfold & Hl).
  unfold Atoi. rewrite Hl.
  assert (Hcheck : (- 2 ^ 63 <=? z) && (z <? 2 ^ 63) = true).
  { apply Bool.andb_true_iff. split; [apply Z.leb_le|apply Z.ltb_lt]; lia. }
  destruct (z <? 0) eqn:E.
  - apply Z.ltb_lt in E.
    replace (Nat.eqb (byteOf (Ascii.ascii_of_nat 45)) 45) with true by reflexivity.
    destruct D as [|d D']; [congruence|]. cbv iota beta.
    rewrite Hdig, Hfold. rewrite Z.abs_neq by lia. rewrite Z.opp_involutive, Hcheck. reflexivity.
  - apply Z.ltb_ge in E.
    destruct D as [|d D']; [congruence|].
    assert (Hd : isDigit d = true) by (apply andb_prop in Hdig; apply Hdig).
    apply isDigit_bounds in Hd.
    replace (Nat.eqb (byteOf d) 45) with false by (symmetry; apply Nat.eqb_neq; lia).
    replace (Nat.eqb (byteOf d) 43) with false by (symmetry; apply Nat.eqb_neq; lia).
    rewrite Hdig, Hfold, Z.abs_eq by lia. rewrite Hcheck. reflexivity.
Qed.

Lemma TrimSpace_decimal z : int64_range z -> TrimSpace (decimal z) = decimal z.
Proof.
  intros Hz. destruct (decimal_parts z Hz) as (D & Hne & Hdig & _ & Hl).
  destruct (forallb_last_digit D Hne Hdig) as (x & r & init & y & Hxr & Hx & Hiy & Hy).
  rewrite <- (String.string_of_list_ascii_of_string (decimal z)), Hl.
  destruct (z <? 0).
  - apply (TrimSpace_unchanged _ (Ascii.ascii_of_nat 45) D (Ascii.ascii_of_nat 45 :: init) y);
      [reflexivity|left; reflexivity| |exact Hy].
    rewrite Hiy. reflexivity.
  - apply (TrimSpace_unchanged _ x r init y); auto.
Qed.

Lemma splitComma_no_comma (l : list Ascii.ascii) :
  Forall (fun ch => byteOf ch <> 44%nat) l ->
  splitComma (String.string_of_list_ascii l) = [String.string_of_list_ascii l].
Proof.
  induction l as [|ch l IH]; intros Hl; [reflexivity|].
  inversion Hl as [|? ? Hch Hrest]; subst.
  cbn [String.string_of_list_ascii splitComma]. rewrite IH by exact Hrest.
  apply Nat.eqb_neq in Hch. rewrite Hch. reflexivity.
Qed.

Lemma splitComma_decimal z : int64_range z -> splitComma (decimal z) = [decimal z].
Proof.
  intros Hz. destruct (decimal_parts z Hz) as (D & _ & Hdig & _ & Hl).
  rewrite <- (String.string_of_list_ascii_of_string (decimal z)), Hl.
  apply splitComma_no_comma.
  assert (HD : Forall (fun ch => byteOf ch <> 44%nat) D).
  { apply Forall_forall. intros ch Hin.
    apply list_elem_of_In in Hin. apply forallb_forall with (x := ch) in Hdig; [|exact Hin].
    apply isDigit_bounds in Hdig. lia. }
  destruct (z <? 0); [constructor; [discriminate|]|]; exact HD.
Qed.

Lemma parsePart_decimal z : int64_range z -> parsePart (decimal z) = Some z.
Proof.
  intros Hz. unfold parsePart. cbn zeta. rewrite TrimSpace_decimal by exact Hz.
  destruct (decimal_parts z Hz) as (D & Hne & _ & _ & Hl).
  destruct (String.eqb (decimal z) "") eqn:E.
  - apply String.eqb_eq in E. rewrite E in Hl. simpl in Hl.
    destruct (z <? 0); [discriminate|]. symmetry in Hl. contradiction.
  - apply Atoi_decimal, Hz.
Qed.





(** Parsing distributes over the separator: the IDs of [s1 + "," + s2]
    are the IDs of [s1] followed by the IDs of [s2]. *)
Theorem parseCommaSeparatedInts_concat s1 s2 :
  parseCommaSeparatedInts (s1 ++ "," ++ s2)%string =
  parseCommaSeparatedInts s1 ++ parseCommaSeparatedInts s2.
Proof. apply parseCommaSeparatedInts_app. Qed.



(** Round trip: joining the decimal forms of int64 identifiers with
    commas and parsing the result gives back the identifiers, in order,
    duplicates included. *)
Theorem parseCommaSeparatedInts_roundtrip zs :
  Forall int64_range zs -> parseCommaSeparatedInts (joinComma (map decimal zs)) = zs.
Proof.
  induction zs as [|z zs IH]; intros Hall; [reflexivity|].
  inversion Hall as [|? ? Hz Hzs]; subst.
  destruct zs as [|z' zs'].
  - cbn [map joinComma]. rewrite parseCommaSeparatedInts_parts, splitComma_decimal by exact Hz.
    cbn [omap list_omap]. rewrite parsePart_decimal by exact Hz. reflexivity.
  - change (joinComma (map decimal (z :: z' :: zs')))
      with (decimal z ++ "," ++ joinComma (map decimal (z' :: zs')))%string.
    rewrite parseCommaSeparatedInts_app, IH by exact Hzs.
    rewrite parseCommaSeparatedInts_parts, splitComma_decimal by exact Hz.
    cbn [omap list_omap]. rewrite parsePart_decimal by exact Hz. reflexivity.
Qed.

Lemma parseCommaSeparatedInts_roundtrip_witness :
  Forall int64_range [7; -3; 9223372036854775807; 7] /\
  parseCommaSeparatedInts "7,-3,9223372036854775807,7" = [7; -3; 9223372036854775807; 7].
Proof.
  assert (H : Forall int64_range [7; -3; 9223372036854775807; 7]).
  { repeat constructor; unfold int64_range; lia. }
  split; [exact H|].
  exact (parseCommaSeparatedInts_roundtrip _ H).
Defined.

(* ------------------------------------------------------------------ *)
(** *** sanitizeError *)

Section SanitizeErrorProofs.

(** Let [simpl] compute [++] on strings built with [String]. *)
Local Arguments String.append : simpl nomatch.

Lemma str_app_assoc a b c : (a ++ (b ++ c))%string = ((a ++ b) ++ c)%string.
Proof. induction a as [|ch a IH]; simpl; congruence. Qed.

Lemma str_length_app a b : String.length (a ++ b) = (String.length a + String.length b)%nat.
Proof. induction a as [|ch a IH]; simpl; congruence. Qed.

Lemma prefix_app k x y : String.prefix k x = true -> String.prefix k (x ++ y) = true.
Proof.
  revert k. induction x as [|ch x IH]; intros k H; destruct k as [|ck k]; simpl in *.
  - destruct y; reflexivity.
  - discriminate.
  - reflexivity.
  - destruct (Ascii.ascii_dec ck ch); [apply IH, H|discriminate].
Qed.

Lemma prefix_split k s : String.prefix k s = true -> exists t, s = (k ++ t)%string.
Proof.
  revert k. induction s as [|ch s IH]; intros k H; destruct k as [|ck k]; simpl in *.
  - exists ""%string. reflexivity.
  - discriminate.
  - exists (String ch s). reflexivity.
  - destruct (Ascii.ascii_dec ck ch) as [->|]; [|discriminate].
    destruct (IH k H) as [t ->]. exists t. reflexivity.
Qed.

Lemma prefix_self k t : String.prefix k (k ++ t) = true.
Proof.
  induction k as [|ck k IH]; simpl; [destruct t; reflexivity|].
  destruct (Ascii.ascii_dec ck ck); [exact IH|congruence].
Qed.

(** "app_key=" has no proper border: an occurrence cannot start inside a
    string that does not begin with it and run into a following one. *)
Lemma key_straddle c x t : String.prefix "app_key=" (String c x) = false ->
  String.prefix "app_key=" (String c x ++ "app_key=" ++ t) = false.
Proof.
  intros H.
  repeat match goal with
  | H : context [Ascii.ascii_dec ?a ?b] |- _ => destruct (Ascii.ascii_dec a b); subst; simpl in *
  | |- context [Ascii.ascii_dec ?a ?b] => destruct (Ascii.ascii_dec a b); subst; simpl in *
  | |- context [String.prefix _ (?x ++ _)] => is_var x; destruct x; simpl in *
  | _ => progress simpl in *
  end; try congruence.
Qed.

Lemma Index_split_first s k i : k <> ""%string -> Index s k = Some i ->
  exists a t, s = (a ++ k ++ t)%string /\ String.length a = i /\ Index a k = None.
Proof.
  intros Hk. revert i. induction s as [|ch s IH]; intros i H; cbn [Index] in H.
  - destruct k; [congruence|discriminate].
  - destruct (String.prefix k (String ch s)) eqn:P.
    + injection H as <-. destruct (prefix_split _ _ P) as [t Ht].
      exists ""%string, t. split; [exact Ht|]. split; [reflexivity|].
      simpl. destruct k; [congruence|reflexivity].
    + destruct (Index s k) as [i'|] eqn:E; [|discriminate]. injection H as <-.
      destruct (IH i' eq_refl) as (a & t & -> & Hl & Ha).
      exists (String ch a), t. split; [reflexivity|]. split; [simpl; rewrite Hl; reflexivity|].
      cbn [Index]. destruct (String.prefix k (String ch a)) eqn:Q.
      * assert (Q' : String.prefix k (String ch (a ++ k ++ t)) = true)
          by exact (prefix_app _ _ (k ++ t) Q).
        congruence.
      * rewrite Ha. reflexivity.
Qed.

Lemma Index_cons ch s k : Index (String ch s) k =
  if String.prefix k (String ch s) then Some 0%nat else S <$> Index s k.
Proof. reflexivity. Qed.

Lemma Index_prefix s k : String.prefix k s = true -> Index s k = Some 0%nat.
Proof. intros H. destruct s; cbn [Index]; rewrite H; reflexivity. Qed.

Lemma Index_key_first a t : Index a "app_key=" = None ->
  Index (a ++ "app_key=" ++ t) "app_key=" = Some (String.length a).
Proof.
  induction a as [|ch a IH]; intros H.
  - exact (Index_prefix ("app_key=" ++ t) "app_key=" (prefix_self _ _)).
  - rewrite Index_cons in H.
    destruct (String.prefix "app_key=" (String ch a)) eqn:P; [discriminate|].
    destruct (Index a "app_key=") eqn:E; [discriminate|].
    assert (P' : String.prefix "app_key=" (String ch (a ++ "app_key=" ++ t)) = false)
      by exact (key_straddle ch a t P).
    change (String ch a ++ "app_key=" ++ t)%string with (String ch (a ++ "app_key=" ++ t)).
    rewrite Index_cons, P', IH by reflexivity. reflexivity.
Qed.

Lemma IndexAny_app_none x y cs : IndexAny x cs = None ->
  IndexAny (x ++ y) cs = Nat.add (String.length x) <$> IndexAny y cs.
Proof.
  induction x as [|ch x IH]; intros H; simpl in *.
  - destruct (IndexAny y cs); reflexivity.
  - destruct (existsb (Nat.eqb (byteOf ch)) (bytesOf cs)); [discriminate|].
    destruct (IndexAny x cs) eqn:E; [discriminate|]. rewrite IH by reflexivity.
    destruct (IndexAny y cs); reflexivity.
Qed.

Lemma IndexAny_split t cs j : IndexAny t cs = Some j ->
  exists v sep rest, t = (v ++ String sep rest)%string /\ IndexAny v cs = None /\
    existsb (Nat.eqb (byteOf sep)) (bytesOf cs) = true.
Proof.
  revert j. induction t as [|ch t IH]; intros j H; simpl in H; [discriminate|].
  destruct (existsb (Nat.eqb (byteOf ch)) (bytesOf cs)) eqn:B.
  - exists ""%string, ch, t. auto.
  - destruct (IndexAny t cs) as [j'|] eqn:E; [|discriminate].
    destruct (IH j' eq_refl) as (v & sep & rest & -> & Hv & Hs).
    exists (String ch v), sep, rest. split; [reflexivity|]. split; [|exact Hs].
    simpl. rewrite B, Hv. reflexivity.
Qed.

Lemma sliceTo_app a y : sliceTo (String.length a) (a ++ y) = a.
Proof.
  unfold sliceTo. induction a as [|ch a IH]; simpl; [destruct y; reflexivity|].
  rewrite IH. reflexivity.
Qed.

Lemma sliceFrom_app a y m : sliceFrom (String.length a + m) (a ++ y) = sliceFrom m y.
Proof. unfold sliceFrom. induction a as [|ch a IH]; simpl; [reflexivity|]. exact IH. Qed.

Lemma sliceFrom_0 y : sliceFrom 0 y = y.
Proof.
  unfold sliceFrom. rewrite Nat.sub_0_r.
  induction y as [|ch y IH]; simpl; [reflexivity|]. rewrite IH. reflexivity.
Qed.

Lemma sliceFrom_app0 a y : sliceFrom (String.length a) (a ++ y) = y.
Proof. rewrite <- (Nat.add_0_r (String.length a)), sliceFrom_app. apply sliceFrom_0. Qed.

Lemma sanitize_to_end a v : Index a "app_key=" = None -> IndexAny v "& " = None ->
  sanitizeError (a ++ "app_key=" ++ v) = (a ++ "app_key=[REDACTED]")%string.
Proof.
  intros Ha Hv. unfold sanitizeError. rewrite Index_key_first by exact Ha.
  rewrite sliceFrom_app0, IndexAny_app_none by reflexivity.
  rewrite Hv. cbn [fmap option_fmap option_map]. rewrite sliceTo_app. reflexivity.
Qed.

Lemma sanitize_to_sep a v sep rest : Index a "app_key=" = None -> IndexAny v "& " = None ->
  (byteOf sep = 38 \/ byteOf sep = 32)%nat ->
  sanitizeError (a ++ "app_key=" ++ v ++ String sep rest) =
    (a ++ "app_key=[REDACTED]" ++ String sep rest)%string.
Proof.
  intros Ha Hv Hs. unfold sanitizeError. rewrite Index_key_first by exact Ha.
  rewrite sliceFrom_app0, IndexAny_app_none by reflexivity.
  rewrite IndexAny_app_none by exact Hv.
  assert (Hsep : IndexAny (String sep rest) "& " = Some 0%nat).
  { simpl. destruct Hs as [-> | ->]; reflexivity. }
  rewrite Hsep. cbn [fmap option_fmap option_map]. rewrite sliceTo_app.
  rewrite sliceFrom_app.
  replace (String.length "app_key=" + (String.length v + 0))%nat
    with (String.length ("app_key=" ++ v) + 0)%nat
    by (rewrite str_length_app; reflexivity).
  rewrite (str_app_assoc "app_key=" v (String sep rest)), sliceFrom_app, sliceFrom_0.
  reflexivity.
Qed.

(** sanitizeError, value running to the end of the message: for a message
    [a ++ "app_key=" ++ v] where [a] holds no "app_key=" and [v] holds no
    '&' and no space, the whole value is replaced by "[REDACTED]". *)
Theorem sanitizeError_redacts_trailing_value a v :
  Index a "app_key=" = None -> IndexAny v "& " = None ->
  sanitizeError (a ++ "app_key=" ++ v) = (a ++ "app_key=[REDACTED]")%string.
Proof. apply sanitize_to_end. Qed.

Lemma sanitizeError_redacts_trailing_value_witness :
  Index "Get https://api.example/x?" "app_key=" = None /\ IndexAny "s3cr3t" "& " = None /\
  sanitizeError ("Get https://api.example/x?" ++ "app_key=" ++ "s3cr3t") =
    ("Get https://api.example/x?" ++ "app_key=[REDACTED]")%string.
Proof.
  split; [reflexivity|]. split; [reflexivity|].
  apply sanitizeError_redacts_trailing_value; reflexivity.
Defined.

(** sanitizeError, value ended by '&' or a space: only the first
    "app_key=" value is replaced; everything from the separator on is
    kept verbatim, including any later "app_key=" value. *)
Theorem sanitizeError_redacts_first_value a v sep rest :
  Index a "app_key=" = None -> IndexAny v "& " = None ->
  (byteOf sep = 38 \/ byteOf sep = 32)%nat ->
  sanitizeError (a ++ "app_key=" ++ v ++ String sep rest) =
    (a ++ "app_key=[REDACTED]" ++ String sep rest)%string.
Proof. apply sanitize_to_sep. Qed.

Lemma sanitizeError_redacts_first_value_witness :
  Index "GET /x?" "app_key=" = None /\ IndexAny "k1" "& " = None /\
  (byteOf (Ascii.ascii_of_nat 38) = 38 \/ byteOf (Ascii.ascii_of_nat 38) = 32)%nat /\
  sanitizeError ("GET /x?" ++ "app_key=" ++ "k1" ++ String (Ascii.ascii_of_nat 38) "app_key=k2") =
    ("GET /x?" ++ "app_key=[REDACTED]" ++ String (Ascii.ascii_of_nat 38) "app_key=k2")%string.
Proof.
  split; [reflexivity|]. split; [reflexivity|]. split; [left; reflexivity|].
  apply sanitizeError_redacts_first_value; [reflexivity|reflexivity|left; reflexivity].
Defined.

(** sanitizeError is idempotent: sanitizing an already sanitized message
    changes nothing. *)
Theorem sanitizeError_idempotent s : sanitizeError (sanitizeError s) = sanitizeError s.
Proof.
  destruct (Index s "app_key=") as [i|] eqn:E.
  - destruct (Index_split_first s "app_key=" i ltac:(discriminate) E) as (a & t & -> & _ & Ha).
    destruct (IndexAny t "& ") as [j|] eqn:F.
    + destruct (IndexAny_split _ _ _ F) as (v & sep & rest & -> & Hv & Hs).
      assert (Hs' : (byteOf sep = 38 \/ byteOf sep = 32)%nat).
      { simpl in Hs. apply Bool.orb_true_iff in Hs as [Hs|Hs]; [left; apply Nat.eqb_eq, Hs|].
        apply Bool.orb_true_iff in Hs as [Hs|Hs]; [right; apply Nat.eqb_eq, Hs|discriminate]. }
      rewrite sanitize_to_sep by assumption.
      change ("app_key=[REDACTED]" ++ String sep rest)%string
        with ("app_key=" ++ "[REDACTED]" ++ String sep rest)%string.
      apply sanitize_to_sep; [exact Ha|reflexivity|exact Hs'].
    + rewrite sanitize_to_end by assumption.
      change ("app_key=[REDACTED]")%string with ("app_key=" ++ "[REDACTED]")%string.
      apply sanitize_to_end; [exact Ha|reflexivity].
  - assert (Hs : sanitizeError s = s) by (unfold sanitizeError; rewrite E; reflexivity).
    rewrite !Hs. reflexivity.
Qed.

End SanitizeErrorProofs.

(* ------------------------------------------------------------------ *)
(** *** enrichChannels, QueryChannels and buildInfoMap *)

Lemma Forall2_map_self {A B} (P : A -> B -> Prop) (f : A -> B) l :
  Forall (fun x => P x (f x)) l -> Forall2 P l (map f l).
Proof. induction 1; constructor; auto. Qed.

Lemma collectChannelIDs_fold chs t p :
  fold_left (fun '(teamIDs, personIDs) ch =>
    (if decide (ci_TeamID ch = 0) then teamIDs else teamIDs ++ [ci_TeamID ch],
     if decide (ci_CreatorID ch = 0) then personIDs else personIDs ++ [ci_CreatorID ch]))
    chs (t, p) =
  (t ++ map ci_TeamID (filter (fun ch => ci_TeamID ch <> 0) chs),
   p ++ map ci_CreatorID (filter (fun ch => ci_CreatorID ch <> 0) chs)).
Proof.
  revert t p. induction chs as [|ch chs IH]; intros t p; cbn [fold_left].
  - rewrite !app_nil_r. reflexivity.
  - rewrite IH, !filter_cons.
    repeat case_decide; try contradiction; cbn [map]; rewrite <- ?app_assoc; reflexivity.
Qed.

Lemma collectChannelIDs_eq chs :
  collectChannelIDs chs =
  (map ci_TeamID (filter (fun ch => ci_TeamID ch <> 0) chs),
   map ci_CreatorID (filter (fun ch => ci_CreatorID ch <> 0) chs)).
Proof. unfold collectChannelIDs. rewrite collectChannelIDs_fold. reflexivity. Qed.

Lemma existsb_nonzero_filter (f : ChannelInfo -> Z) chs :
  existsb (fun x => negb (x =? 0)) (map f (filter (fun ch => f ch <> 0) chs)) =
  existsb (fun ch => negb (f ch =? 0)) chs.
Proof.
  induction chs as [|ch chs IH]; [reflexivity|].
  rewrite filter_cons. case_decide as Hf; cbn [map existsb].
  - apply Z.eqb_neq in Hf. rewrite Hf. reflexivity.
  - rewrite IH. assert (f ch = 0) as -> by lia. reflexivity.
Qed.

Lemma elem_of_map_nonzero (f : ChannelInfo -> Z) chs x :
  x ∈ map f (filter (fun ch => f ch <> 0) chs) <-> exists ch, ch ∈ chs /\ x <> 0 /\ x = f ch.
Proof.
  rewrite list_elem_of_In, in_map_iff. split.
  - intros (ch & <- & Hin). apply list_elem_of_In, list_elem_of_filter in Hin as [Hf Hin].
    exists ch. auto.
  - intros (ch & Hin & Hx & ->). exists ch. split; [reflexivity|].
    apply list_elem_of_In, list_elem_of_filter. auto.
Qed.

Section ChannelProofs.
Variable range_ids : gset Z -> list Z.
Variable c : Client.

Lemma enrichChannel_keeps tm pm ch : keepsIdentity ch (enrichChannel tm pm ch).
Proof. repeat split. Qed.

Lemma enrichChannels_keeps chs : Forall2 keepsIdentity chs (enrichChannels range_ids c chs).2.
Proof.
  unfold enrichChannels. destruct chs as [|ch0 chs]; [constructor|].
  destruct (collectChannelIDs (ch0 :: chs)) as [tids pids].
  destruct (fetchTeamInfos range_ids c tids) as [rq1 tr].
  destruct (fetchPersonInfos range_ids c pids) as [rq2 pr]. cbn [fst snd].
  apply Forall2_map_self, Forall_forall. intros ch _. apply enrichChannel_keeps.
Qed.

Lemma enrichChannels_ids chs :
  map ci_ChannelID (enrichChannels range_ids c chs).2 = map ci_ChannelID chs.
Proof.
  induction (enrichChannels_keeps chs) as [|ch ch' l l' [Hid _] _ IH]; [reflexivity|].
  cbn [map]. rewrite Hid, IH. reflexivity.
Qed.

Lemma fetchInfos_requests {Item Info : Type} (Hperm : forall s, range_ids s ≡ₚ elements s)
    what path key (send : Request -> Outcome Item) (entry : Item -> option (Z * Info)) ids :
  (fetchInfos range_ids what path key send entry ids).1 =
  if existsb (fun x => negb (x =? 0)) ids
  then [{| req_method := "POST"; req_path := path; req_key := key;
           req_ids := range_ids (dedupIDs ids) |}]
  else [].
Proof.
  assert (Hmem : forall x, x ∈ range_ids (dedupIDs ids) <-> x ∈ ids /\ x <> 0).
  { intros x. rewrite (range_ids_elem range_ids Hperm), dedupIDs_spec. reflexivity. }
  assert (Hex : existsb (fun x => negb (x =? 0)) ids = true <-> exists x, x ∈ ids /\ x <> 0).
  { rewrite existsb_exists. split.
    - intros (x & Hin & Hx). exists x. split; [apply list_elem_of_In, Hin|].
      apply negb_true_iff, Z.eqb_neq in Hx. exact Hx.
    - intros (x & Hin & Hx). exists x. split; [apply list_elem_of_In, Hin|].
      apply negb_true_iff, Z.eqb_neq. exact Hx. }
  destruct ids as [|i0 ids]; [reflexivity|].
  cbn [fetchInfos]. destruct (range_ids (dedupIDs (i0 :: ids))) as [|z zs] eqn:R.
  - destruct (existsb (fun x => negb (x =? 0)) (i0 :: ids)) eqn:B; [|reflexivity].
    destruct (proj1 Hex eq_refl) as (x & Hin & Hx).
    assert (Hr : x ∈ ([] : list Z)) by (apply Hmem; auto).
    apply elem_of_nil in Hr. contradiction.
  - assert (B : existsb (fun x => negb (x =? 0)) (i0 :: ids) = true).
    { apply Hex. exists z. apply Hmem. left. }
    rewrite B. reflexivity.
Qed.

Lemma NoDup_range_ids (Hperm : forall s, range_ids s ≡ₚ elements s) s : NoDup (range_ids s).
Proof. rewrite (Hperm s). apply NoDup_elements. Qed.

(** What the last item giving a key stores is what the map holds. *)
Lemma buildInfoMap_fold {Item Info : Type} (entry : Item -> option (Z * Info)) items
    (m : gmap Z Info) k :
  fold_left (fun m it => match entry it with
                         | Some (k, v) => <[ k := v ]> m
                         | None => m
                         end) items m !! k =
  match lastEntry entry k items with Some v => Some v | None => m !! k end.
Proof.
  unfold lastEntry. revert m. induction items as [|it items IH]; intros m; [reflexivity|].
  cbn [fold_left omap list_omap]. rewrite IH.
  destruct (entry it) as [[k' v]|] eqn:E; [|reflexivity].
  destruct (decide (k' = k)) as [->|Hne]; cbn iota beta.
  - rewrite last_cons. destruct (last (omap _ items)); [reflexivity|].
    rewrite lookup_insert_eq. reflexivity.
  - rewrite lookup_insert_ne by congruence. reflexivity.
Qed.

Lemma buildInfoMap_inv {Item Info : Type} (entry : Item -> option (Z * Info)) items
    (Q : Z -> Info -> Prop) :
  (forall it k v, entry it = Some (k, v) -> Q k v) ->
  forall k v, buildInfoMap entry items !! k = Some v -> Q k v.
Proof.
  intros HQ. unfold buildInfoMap.
  assert (H0 : forall k v, (∅ : gmap Z Info) !! k = Some v -> Q k v).
  { intros k v H. rewrite lookup_empty in H. discriminate. }
  revert H0. generalize (∅ : gmap Z Info) as m0. induction items as [|it items IH]; intros m0 H0; cbn [fold_left]; [exact H0|].
  apply IH. intros k v Hk. destruct (entry it) as [[k' v']|] eqn:E; [|exact (H0 k v Hk)].
  destruct (decide (k' = k)) as [->|Hne].
  - rewrite lookup_insert_eq in Hk. injection Hk as <-. exact (HQ it k v' E).
  - rewrite lookup_insert_ne in Hk by congruence. exact (H0 k v Hk).
Qed.
End ChannelProofs.

Lemma Forall2_map_l_inv {A B C} (P : B -> C -> Prop) (f : A -> B) l l' :
  Forall2 P (map f l) l' -> Forall2 (fun x y => P (f x) y) l l'.
Proof.
  revert l'. induction l as [|x l IH]; intros l' H; inversion H; subst; constructor; auto.
Qed.

Lemma enrichChannels_requests_eq range_ids c chs : chs <> [] ->
  (enrichChannels range_ids c chs).1 =
  (fetchTeamInfos range_ids c (collectChannelIDs chs).1).1 ++
  (fetchPersonInfos range_ids c (collectChannelIDs chs).2).1.
Proof.
  intros Hne. destruct chs as [|ch0 chs]; [congruence|]. unfold enrichChannels.
  destruct (collectChannelIDs (ch0 :: chs)) as [tids pids]. cbn [fst snd].
  destruct (fetchTeamInfos range_ids c tids) as [rq1 tr].
  destruct (fetchPersonInfos range_ids c pids) as [rq2 pr]. reflexivity.
Qed.

Lemma filterChannels_eq ToLower name items :
  filterChannels ToLower name items = map channelOfItem (List.filter (keepChannel ToLower name) items).
Proof.
  unfold filterChannels.
  enough (H : forall acc, fold_left (fun channels ch =>
      if negb (String.eqb name "") && negb (Contains (ToLower (chi_ChannelName ch)) (ToLower name))
      then channels else channels ++ [channelOfItem ch]) items acc =
    acc ++ map channelOfItem (List.filter (keepChannel ToLower name) items)) by apply H.
  induction items as [|it items IH]; intros acc; cbn [fold_left List.filter].
  - rewrite app_nil_r. reflexivity.
  - rewrite IH. unfold keepChannel.
    destruct (String.eqb name ""), (Contains (ToLower (chi_ChannelName it)) (ToLower name));
      cbn [negb andb orb map]; rewrite <- ?app_assoc; reflexivity.
Qed.

Lemma fetchInfos_inv {Item Info : Type} range_ids what path key (send : Request -> Outcome Item)
    (entry : Item -> option (Z * Info)) ids m (Q : Z -> Info -> Prop) :
  (forall it k v, entry it = Some (k, v) -> Q k v) ->
  (fetchInfos range_ids what path key send entry ids).2 = inr m ->
  forall k v, m !! k = Some v -> Q k v.
Proof.
  intros HQ. assert (H0 : forall k v, (∅ : gmap Z Info) !! k = Some v -> Q k v).
  { intros k v H. rewrite lookup_empty in H. discriminate. }
  unfold fetchInfos. repeat case_match; cbn [snd]; intros Hr; simplify_eq;
    first [exact H0 | apply buildInfoMap_inv; exact HQ].
Qed.

Lemma NoDup_channel_ids (m : gmap Z ChannelInfo) :
  (forall k v, m !! k = Some v -> ci_ChannelID v = k) ->
  NoDup (map ci_ChannelID ((map_to_list m).*2)).
Proof.
  intros Hm.
  assert (HF : Forall (fun kv => ci_ChannelID kv.2 = kv.1) (map_to_list m)).
  { apply Forall_forall. intros [k v] Hin. apply elem_of_map_to_list in Hin. exact (Hm k v Hin). }
  enough (E : map ci_ChannelID ((map_to_list m).*2) = (map_to_list m).*1)
    by (rewrite E; apply NoDup_fst_map_to_list).
  induction HF as [|[k v] l Hkv _ IH]; [reflexivity|].
  cbn [fmap list_fmap map fst snd] in *. rewrite <- IH, Hkv. reflexivity.
Qed.

(** enrichChannels keeps every channel, in order, with its ID, name, team
    ID and creator ID; a channel's team name becomes the name the team
    lookup returns for its team ID, and stays as it was when the lookup
    failed or does not know the ID; the same holds for the creator name
    and the person lookup. *)
Theorem enrichChannels_names range_ids c channels :
  Forall2 (fun ch ch' => keepsIdentity ch ch' /\
     resolvesOrKeeps
       (lookupResult (fetchTeamInfos range_ids c (collectChannelIDs channels).1).2 (ci_TeamID ch))
       ti_TeamName (ci_TeamName ch) (ci_TeamName ch') /\
     resolvesOrKeeps
       (lookupResult (fetchPersonInfos range_ids c (collectChannelIDs channels).2).2 (ci_CreatorID ch))
       pi_PersonName (ci_CreatorName ch) (ci_CreatorName ch'))
    channels (enrichChannels range_ids c channels).2.
Proof.
  destruct channels as [|ch0 chs]; [constructor|]. unfold enrichChannels.
  destruct (collectChannelIDs (ch0 :: chs)) as [tids pids]. cbn [fst snd].
  destruct (fetchTeamInfos range_ids c tids) as [rq1 tr].
  destruct (fetchPersonInfos range_ids c pids) as [rq2 pr]. cbv iota beta zeta. cbn [fst snd].
  apply Forall2_map_self, Forall_forall. intros ch _.
  split; [apply enrichChannel_keeps|].
  unfold resolvesOrKeeps, lookupResult, enrichChannel. cbn [ci_TeamName ci_CreatorName].
  split.
  - destruct tr as [e|tm]; [rewrite lookup_empty; reflexivity|].
    destruct (tm !! ci_TeamID ch); reflexivity.
  - destruct pr as [e|pm]; [rewrite lookup_empty; reflexivity|].
    destruct (pm !! ci_CreatorID ch); reflexivity.
Qed.

(** enrichChannels sends at most one team lookup and at most one person
    lookup, in no fixed order (the two run concurrently): the team lookup
    exactly when some channel has a nonzero team ID, the person lookup
    exactly when some channel has a nonzero creator ID.  Each carries the
    distinct nonzero IDs of the channels, each once; for no channel
    nothing is sent. *)
Theorem enrichChannels_requests range_ids c
    (Hperm : forall s, range_ids s ≡ₚ elements s) channels :
  map req_path (enrichChannels range_ids c channels).1 ≡ₚ
    (if existsb (fun ch => negb (ci_TeamID ch =? 0)) channels then ["/team/infos"%string] else []) ++
    (if existsb (fun ch => negb (ci_CreatorID ch =? 0)) channels then ["/person/infos"%string] else []) /\
  Forall (fun r => NoDup (req_ids r) /\
    forall x, x ∈ req_ids r <-> exists ch, ch ∈ channels /\ x <> 0 /\
      x = (if String.eqb (req_path r) "/team/infos" then ci_TeamID ch else ci_CreatorID ch))
    (enrichChannels range_ids c channels).1.
Proof.
  destruct (decide (channels = [])) as [->|Hne]; [split; [reflexivity|constructor]|].
  rewrite enrichChannels_requests_eq by exact Hne. rewrite collectChannelIDs_eq. cbn [fst snd].
  unfold fetchTeamInfos, fetchPersonInfos. rewrite !(fetchInfos_requests range_ids Hperm).
  rewrite !existsb_nonzero_filter. split.
  - destruct (existsb _ channels), (existsb _ channels); reflexivity.
  - apply Forall_app. split.
    + destruct (existsb _ channels); constructor; [|constructor]. cbn [req_ids req_path].
      split; [apply NoDup_range_ids, Hperm|]. intros x.
      replace (String.eqb "/team/infos" "/team/infos") with true by reflexivity.
      rewrite (range_ids_elem range_ids Hperm), dedupIDs_spec, elem_of_map_nonzero.
      naive_solver.
    + destruct (existsb _ channels); constructor; [|constructor]. cbn [req_ids req_path].
      split; [apply NoDup_range_ids, Hperm|]. intros x.
      replace (String.eqb "/person/infos" "/team/infos") with false by reflexivity.
      rewrite (range_ids_elem range_ids Hperm), dedupIDs_spec, elem_of_map_nonzero.
      naive_solver.
Qed.

Lemma enrichChannels_requests_witness :
  (forall s : gset Z, elements s ≡ₚ elements s) /\
  map req_path (enrichChannels (elements (C := gset Z)) channelListClient
                  [channelOfItem ops; channelOfItem billing]).1 ≡ₚ
    (if existsb (fun ch => negb (ci_TeamID ch =? 0)) [channelOfItem ops; channelOfItem billing]
     then ["/team/infos"%string] else []) ++
    (if existsb (fun ch => negb (ci_CreatorID ch =? 0)) [channelOfItem ops; channelOfItem billing]
     then ["/person/infos"%string] else []).
Proof.
  split; [intros s; reflexivity|].
  exact (proj1 (enrichChannels_requests (elements (C := gset Z)) channelListClient (fun s => reflexivity _)
                  [channelOfItem ops; channelOfItem billing])).
Defined.

(** QueryChannels with channel_ids given: the name parameter is ignored;
    a transport, status or API failure of the channel lookup becomes a
    tool error "Unable to retrieve channels", never a handler error; an
    empty parse gives a tool error without any request; and the channels
    returned have pairwise distinct IDs, with a total equal to their
    number. *)
Theorem QueryChannels_by_ids range_ids c range_channels ToLower channel_ids name
    (Hch : forall m, range_channels m ≡ₚ (map_to_list m).*2)
    (Hids : channel_ids <> ""%string) :
  QueryChannels range_ids c range_channels ToLower channel_ids name =
    QueryChannels range_ids c range_channels ToLower channel_ids "" /\
  match QueryChannels range_ids c range_channels ToLower channel_ids name with
  | (rqs, ToolErrorText _) => rqs = [] /\ parseCommaSeparatedInts channel_ids = []
  | (_, ToolError prefix _) => prefix = Some "Unable to retrieve channels"%string
  | (_, HandlerTransportError _) | (_, HandlerParseError) => False
  | (_, ChannelsResult out total) => NoDup (map ci_ChannelID out) /\ total = Z.of_nat (length out)
  end.
Proof.
  apply String.eqb_neq in Hids. split; [unfold QueryChannels; rewrite Hids; reflexivity|].
  unfold QueryChannels. rewrite Hids. cbn [negb].
  destruct (parseCommaSeparatedInts channel_ids) as [|i0 is] eqn:P; [split; reflexivity|].
  destruct (fetchChannelInfos range_ids c (i0 :: is)) as [rq1 [e|m]] eqn:F; [reflexivity|].
  destruct (enrichChannels range_ids c (range_channels m)) as [rq2 out] eqn:En.
  split; [|reflexivity].
  assert (Hout : out = (enrichChannels range_ids c (range_channels m)).2) by (rewrite En; reflexivity).
  rewrite Hout, enrichChannels_ids.
  assert (Hm : forall k v, m !! k = Some v -> ci_ChannelID v = k).
  { unfold fetchChannelInfos in F.
    eapply (fetchInfos_inv _ _ _ _ _ _ _ _ (fun k v => ci_ChannelID v = k));
      [|rewrite F; reflexivity].
    intros it k v Heq. inversion Heq. reflexivity. }
  apply NoDup_ListNoDup.
  apply (Permutation_NoDup (Permutation_sym (Permutation_map ci_ChannelID (Hch m)))).
  apply NoDup_ListNoDup, NoDup_channel_ids, Hm.
Qed.

Lemma QueryChannels_by_ids_witness :
  (forall m, (fun m : gmap Z ChannelInfo => (map_to_list m).*2) m ≡ₚ (map_to_list m).*2) /\
  "4, 3"%string <> ""%string /\
  QueryChannels (elements (C := gset Z)) channelListClient (fun m => (map_to_list m).*2) (fun s => s) "4, 3" "zzz" =
    QueryChannels (elements (C := gset Z)) channelListClient (fun m => (map_to_list m).*2) (fun s => s) "4, 3" "".
Proof.
  split; [intros m; reflexivity|]. split; [discriminate|].
  exact (proj1 (QueryChannels_by_ids (elements (C := gset Z)) channelListClient (fun m => (map_to_list m).*2)
                  (fun s => s) "4, 3" "zzz" (fun m => reflexivity _) ltac:(discriminate))).
Defined.

(** QueryChannels with channel_ids that parse only to zero IDs, such as
    "0": no request is sent and the result is an empty channel list with
    total 0, not an error. *)
Theorem QueryChannels_zero_ids range_ids c range_channels ToLower channel_ids name
    (Hperm : forall s, range_ids s ≡ₚ elements s)
    (Hch : forall m, range_channels m ≡ₚ (map_to_list m).*2)
    (Hids : channel_ids <> ""%string)
    (Hne : parseCommaSeparatedInts channel_ids <> [])
    (Hz : Forall (fun id => id = 0) (parseCommaSeparatedInts channel_ids)) :
  QueryChannels range_ids c range_channels ToLower channel_ids name = ([], ChannelsResult [] 0).
Proof.
  apply String.eqb_neq in Hids. unfold QueryChannels. rewrite Hids. cbn [negb].
  destruct (parseCommaSeparatedInts channel_ids) as [|i0 is] eqn:P; [congruence|].
  unfold fetchChannelInfos. rewrite (fetchInfos_zeros range_ids Hperm) by exact Hz.
  assert (E : range_channels ∅ = []).
  { apply Permutation_nil. rewrite (Hch ∅), map_to_list_empty. reflexivity. }
  rewrite E. reflexivity.
Qed.

Lemma QueryChannels_zero_ids_witness :
  (forall s : gset Z, elements s ≡ₚ elements s) /\
  (forall m, (fun m : gmap Z ChannelInfo => (map_to_list m).*2) m ≡ₚ (map_to_list m).*2) /\
  "0, 0"%string <> ""%string /\ parseCommaSeparatedInts "0, 0" <> [] /\
  Forall (fun id => id = 0) (parseCommaSeparatedInts "0, 0") /\
  QueryChannels (elements (C := gset Z)) channelListClient (fun m => (map_to_list m).*2) (fun s => s) "0, 0" "" =
    ([], ChannelsResult [] 0).
Proof.
  split; [intros s; reflexivity|]. split; [intros m; reflexivity|].
  split; [discriminate|]. split; [vm_compute; discriminate|].
  split; [vm_compute; repeat constructor|].
  apply (QueryChannels_zero_ids (elements (C := gset Z)) channelListClient (fun m => (map_to_list m).*2) (fun s => s)
           "0, 0" "" (fun s => reflexivity _) (fun m => reflexivity _)).
  - discriminate.
  - vm_compute; discriminate.
  - vm_compute; repeat constructor.
Defined.

(** QueryChannels without channel_ids, when /channel/list answers 200
    with no error: the list request is sent first, and the channels
    returned are the listed items the name filter keeps, in order, each
    with its ID, name, team ID and creator ID; the total is their
    number. *)
Theorem QueryChannels_list range_ids c range_channels ToLower name env
    (Hs : sendChannel c listChannelsRequest = Response 200 (Some env))
    (He : env_error env = None) :
  head (QueryChannels range_ids c range_channels ToLower "" name).1 = Some listChannelsRequest /\
  match (QueryChannels range_ids c range_channels ToLower "" name).2 with
  | ChannelsResult out total =>
      Forall2 (fun it ch => keepsIdentity (channelOfItem it) ch)
        (List.filter (keepChannel ToLower name) (default [] (env_data env))) out /\
      total = Z.of_nat (length out)
  | _ => False
  end.
Proof.
  unfold QueryChannels. cbn [String.eqb negb]. rewrite Hs.
  rewrite decide_True by reflexivity. rewrite He, filterChannels_eq.
  set (L := List.filter (keepChannel ToLower name) (default [] (env_data env))).
  pose proof (enrichChannels_keeps range_ids c (map channelOfItem L)) as K.
  destruct (enrichChannels range_ids c (map channelOfItem L)) as [rq2 out].
  cbn [fst snd head] in *. split; [reflexivity|]. split; [|reflexivity].
  apply Forall2_map_l_inv, K.
Qed.

Lemma QueryChannels_list_witness :
  sendChannel channelListClient listChannelsRequest =
    Response 200 (Some {| env_error := None; env_data := Some [ops; billing] |}) /\
  head (QueryChannels (elements (C := gset Z)) channelListClient (fun m => (map_to_list m).*2) (fun s => s) "" "Bill").1
    = Some listChannelsRequest.
Proof.
  split; [reflexivity|].
  exact (proj1 (QueryChannels_list (elements (C := gset Z)) channelListClient (fun m => (map_to_list m).*2)
                  (fun s => s) "Bill" {| env_error := None; env_data := Some [ops; billing] |}
                  eq_refl eq_refl)).
Defined.

(** buildInfoMap, the loop of the batch lookups over the answer's items:
    the value stored for a key is the one of the last item giving that
    key; a key no item gives is absent. *)
Theorem buildInfoMap_last_wins {Item Info : Type} (entry : Item -> option (Z * Info)) items k :
  buildInfoMap entry items !! k = lastEntry entry k items.
Proof.
  unfold buildInfoMap. rewrite buildInfoMap_fold.
  destruct (lastEntry entry k items); [reflexivity|]. apply lookup_empty.
Qed.

(* ------------------------------------------------------------------ *)
(** *** The ID collectors of enrichIncidents and of the escalation rules *)

Lemma push_nonzero_eq acc z :
  (if decide (z = 0) then acc else acc ++ [z]) = acc ++ nonzero [z].
Proof.
  unfold nonzero. cbn [List.filter]. case_decide as Hz.
  - subst. rewrite app_nil_r. reflexivity.
  - apply Z.eqb_neq in Hz. rewrite Hz. reflexivity.
Qed.

Lemma nonzero_app l1 l2 : nonzero (l1 ++ l2) = nonzero l1 ++ nonzero l2.
Proof.
  unfold nonzero. induction l1 as [|a l1 IH]; cbn [List.filter app]; [reflexivity|].
  destruct (negb (a =? 0)); rewrite IH; reflexivity.
Qed.

Lemma fold_push_nonzero_eq {A} (f : A -> Z) (l : list A) acc :
  fold_left (fun acc a => if decide (f a = 0) then acc else acc ++ [f a]) l acc =
  acc ++ nonzero (map f l).
Proof.
  revert acc. induction l as [|a l IH]; intros acc; cbn [fold_left map].
  - rewrite app_nil_r. reflexivity.
  - rewrite IH, push_nonzero_eq, <- app_assoc, <- nonzero_app. reflexivity.
Qed.

Lemma fold_push_nonzero_id_eq (l acc : list Z) :
  fold_left (fun a z => if decide (z = 0) then a else a ++ [z]) l acc = acc ++ nonzero l.
Proof. rewrite (fold_push_nonzero_eq (fun z => z)), map_id. reflexivity. Qed.

(** The ID collector of enrichIncidents: the person IDs are the nonzero
    creator, closer and responder IDs, incident after incident in that
    order, duplicates kept; the channel IDs are the nonzero channel IDs
    in incident order. *)
Theorem collectIncidentIDs_eq incs :
  collectIncidentIDs incs =
  (nonzero (flat_map incidentPersonRefs incs), nonzero (map ri_ChannelID incs)).
Proof.
  unfold collectIncidentIDs.
  enough (H : forall p cs, fold_left (fun '(personIDs, channelIDs) inc =>
    let personIDs := if decide (ri_CreatorID inc = 0) then personIDs
                     else personIDs ++ [ri_CreatorID inc] in
    let personIDs := if decide (ri_CloserID inc = 0) then personIDs
                     else personIDs ++ [ri_CloserID inc] in
    let personIDs := fold_left (fun acc r => if decide (rr_PersonID r = 0) then acc
                                             else acc ++ [rr_PersonID r])
                               (ri_Responders inc) personIDs in
    let channelIDs := if decide (ri_ChannelID inc = 0) then channelIDs
                      else channelIDs ++ [ri_ChannelID inc] in
    (personIDs, channelIDs)) incs (p, cs) =
    (p ++ nonzero (flat_map incidentPersonRefs incs), cs ++ nonzero (map ri_ChannelID incs)))
    by apply H.
  induction incs as [|inc incs IH]; intros p cs; cbn [fold_left flat_map map].
  - rewrite !app_nil_r. reflexivity.
  - rewrite IH, (fold_push_nonzero_eq rr_PersonID), !push_nonzero_eq.
    unfold incidentPersonRefs.
    change (ri_CreatorID inc :: ri_CloserID inc :: map rr_PersonID (ri_Responders inc))
      with ([ri_CreatorID inc] ++ [ri_CloserID inc] ++ map rr_PersonID (ri_Responders inc)).
    change (ri_ChannelID inc :: map ri_ChannelID incs) with ([ri_ChannelID inc] ++ map ri_ChannelID incs).
    rewrite !nonzero_app, <- !app_assoc. reflexivity.
Qed.

Lemma collectRuleIDs_layers range_roles layers p t s :
  fold_left (fun '(personIDs, teamIDs, scheduleIDs) l =>
      match rl_Target l with
      | None => (personIDs, teamIDs, scheduleIDs)
      | Some tg =>
          (fold_left (fun a pid => if decide (pid = 0) then a else a ++ [pid])
                     (rtg_PersonIDs tg) personIDs,
           fold_left (fun a tid => if decide (tid = 0) then a else a ++ [tid])
                     (rtg_TeamIDs tg) teamIDs,
           fold_left (fun a sid => if decide (sid = 0) then a else a ++ [sid])
                     (map fst (range_roles (rtg_ScheduleToRoleIDs tg))) scheduleIDs)
      end) layers (p, t, s) =
  (p ++ nonzero (flat_map layerPersonRefs layers),
   t ++ nonzero (flat_map layerTeamRefs layers),
   s ++ nonzero (flat_map (layerScheduleRefs range_roles) layers)).
Proof.
  revert p t s. induction layers as [|l layers IH]; intros p t s; cbn [fold_left flat_map].
  - rewrite !app_nil_r. reflexivity.
  - unfold layerPersonRefs at 1, layerTeamRefs at 1, layerScheduleRefs at 1.
    destruct (rl_Target l) as [tg|].
    + rewrite IH, !fold_push_nonzero_id_eq, !nonzero_app, <- !app_assoc. reflexivity.
    + rewrite IH. reflexivity.
Qed.

(** The ID collector of the escalation rules: for each kind the IDs are
    the nonzero IDs of the layers' targets, rule after rule and layer
    after layer, duplicates kept; layers without a target add nothing. *)
Theorem collectRuleIDs_eq range_roles rules :
  collectRuleIDs range_roles rules =
  (nonzero (flat_map (fun r => flat_map layerPersonRefs (rer_Layers r)) rules),
   nonzero (flat_map (fun r => flat_map layerTeamRefs (rer_Layers r)) rules),
   nonzero (flat_map (fun r => flat_map (layerScheduleRefs range_roles) (rer_Layers r)) rules)).
Proof.
  unfold collectRuleIDs.
  enough (H : forall p t s, fold_left (fun acc r =>
    fold_left (fun '(personIDs, teamIDs, scheduleIDs) l =>
      match rl_Target l with
      | None => (personIDs, teamIDs, scheduleIDs)
      | Some t =>
          (fold_left (fun a pid => if decide (pid = 0) then a else a ++ [pid])
                     (rtg_PersonIDs t) personIDs,
           fold_left (fun a tid => if decide (tid = 0) then a else a ++ [tid])
                     (rtg_TeamIDs t) teamIDs,
           fold_left (fun a sid => if decide (sid = 0) then a else a ++ [sid])
                     (map fst (range_roles (rtg_ScheduleToRoleIDs t))) scheduleIDs)
      end) (rer_Layers r) acc) rules (p, t, s) =
    (p ++ nonzero (flat_map (fun r => flat_map layerPersonRefs (rer_Layers r)) rules),
     t ++ nonzero (flat_map (fun r => flat_map layerTeamRefs (rer_Layers r)) rules),
     s ++ nonzero (flat_map (fun r => flat_map (layerScheduleRefs range_roles) (rer_Layers r)) rules)))
    by apply H.
  induction rules as [|r rules IH]; intros p t s; cbn [fold_left flat_map].
  - rewrite !app_nil_r. reflexivity.
  - rewrite collectRuleIDs_layers, IH, !nonzero_app, <- !app_assoc. reflexivity.
Qed.

Lemma layer_indices_from range_roles pm tm sm n ls :
  map el_LayerIdx (imap (fun i l => buildLayer range_roles pm tm sm (n + i) l) ls) =
  seq n (length ls).
Proof.
  revert n. induction ls as [|l ls IH]; intros n; [reflexivity|].
  rewrite imap_cons. cbn [map seq length]. f_equal; [cbn; lia|].
  rewrite <- IH. f_equal. apply imap_ext. intros i x _. cbn. f_equal. lia.
Qed.

(** buildRule numbers the layers of a rule 0, 1, 2, ... in the order of
    the raw layers, one output layer per raw layer. *)
Theorem buildRule_layer_indices range_roles pm tm sm cm r :
  map el_LayerIdx (erl_Layers (buildRule range_roles pm tm sm cm r)) =
  seq 0 (length (rer_Layers r)).
Proof.
  cbn [buildRule erl_Layers].
  rewrite <- (layer_indices_from range_roles pm tm sm 0). reflexivity.
Qed.

(** QueryChannels without channel_ids, when /channel/list fails (no
    answer, a status other than 200, no body, or an API error): the list
    request is the only request sent, no team or person lookup follows,
    and no channel list is returned. *)
Theorem QueryChannels_list_failure range_ids c range_channels ToLower name
    (Hfail : forall env, sendChannel c listChannelsRequest = Response 200 (Some env) ->
                         env_error env <> None) :
  (QueryChannels range_ids c range_channels ToLower "" name).1 = [listChannelsRequest] /\
  match (QueryChannels range_ids c range_channels ToLower "" name).2 with
  | ChannelsResult _ _ => False
  | _ => True
  end.
Proof.
  unfold QueryChannels. cbn [String.eqb negb].
  destruct (sendChannel c listChannelsRequest) as [msg|status body] eqn:Hs; [split; [reflexivity|exact I]|].
  destruct (decide (status = 200)) as [->|Hne]; [|split; [reflexivity|exact I]].
  destruct body as [env|]; [|split; [reflexivity|exact I]].
  destruct (env_error env) as [[code message]|] eqn:He; [split; [reflexivity|exact I]|].
  exfalso. exact (Hfail env eq_refl He).
Qed.

Lemma QueryChannels_list_failure_witness :
  (forall env, sendChannel downClient listChannelsRequest = Response 200 (Some env) ->
               env_error env <> None) /\
  (QueryChannels (elements (C := gset Z)) downClient (fun m => (map_to_list m).*2) (fun s => s) "" "").1
    = [listChannelsRequest].
Proof.
  assert (H : forall env, sendChannel downClient listChannelsRequest = Response 200 (Some env) ->
                          env_error env <> None) by (intros env Hs; discriminate).
  split; [exact H|].
  exact (proj1 (QueryChannels_list_failure (elements (C := gset Z)) downClient
                  (fun m => (map_to_list m).*2) (fun s => s) "" H)).
Defined.

Lemma range_ids_singleton range_ids (Hperm : forall s, range_ids s ≡ₚ elements s) cid :
  cid <> 0 -> range_ids (dedupIDs [cid]) = [cid].
Proof.
  intros Hc. unfold dedupIDs. cbn [fold_left]. rewrite decide_False by exact Hc.
  rewrite union_empty_r_L.
  apply Permutation_length_1_inv. rewrite (Hperm {[cid]}), elements_singleton. reflexivity.
Qed.

(** For a non-empty list of rules, enrichEscalationRules sends, in no
    fixed order (the four lookups run concurrently), one person, one team
    and one schedule lookup carrying the distinct nonzero IDs collected
    from the rules, each only when there is such an ID, and one
    /channel/infos request {"channel_ids": [channelID]}, none when
    channelID is 0. *)
Theorem enrichEscalationRules_requests range_roles range_ids c
    (Hperm : forall s, range_ids s ≡ₚ elements s) channelID rules (Hne : rules <> []) :
  (enrichEscalationRules range_roles range_ids c channelID rules).1 ≡ₚ
    batchRequest "/person/infos" "person_ids" range_ids (collectRuleIDs range_roles rules).1.1 ++
    batchRequest "/team/infos" "team_ids" range_ids (collectRuleIDs range_roles rules).1.2 ++
    batchRequest "/schedule/infos" "schedule_ids" range_ids (collectRuleIDs range_roles rules).2 ++
    (if channelID =? 0 then []
     else [{| req_method := "POST"; req_path := "/channel/infos";
              req_key := "channel_ids"; req_ids := [channelID] |}]).
Proof.
  unfold enrichEscalationRules.
  destruct (collectRuleIDs range_roles rules) as [[pids tids] sids]. cbn [fst snd].
  unfold fetchPersonInfos, fetchTeamInfos, fetchScheduleInfos, fetchChannelInfos.
  match goal with |- context [fetchInfos range_ids ?w ?p ?k ?s ?e pids] =>
    pose proof (fetchInfos_requests range_ids Hperm w p k s e pids) as E1;
    destruct (fetchInfos range_ids w p k s e pids) as [rq1 r1] end.
  match goal with |- context [fetchInfos range_ids ?w ?p ?k ?s ?e tids] =>
    pose proof (fetchInfos_requests range_ids Hperm w p k s e tids) as E2;
    destruct (fetchInfos range_ids w p k s e tids) as [rq2 r2] end.
  match goal with |- context [fetchInfos range_ids ?w ?p ?k ?s ?e sids] =>
    pose proof (fetchInfos_requests range_ids Hperm w p k s e sids) as E3;
    destruct (fetchInfos range_ids w p k s e sids) as [rq3 r3] end.
  match goal with |- context [fetchInfos range_ids ?w ?p ?k ?s ?e [channelID]] =>
    pose proof (fetchInfos_requests range_ids Hperm w p k s e [channelID]) as E4;
    destruct (fetchInfos range_ids w p k s e [channelID]) as [rq4 r4] end.
  cbn [fst] in E1, E2, E3, E4 |- *. subst rq1 rq2 rq3 rq4.
  unfold batchRequest. cbn [existsb]. rewrite orb_false_r.
  destruct (Z.eqb_spec channelID 0) as [->|Hc]; [reflexivity|].
  cbn [negb]. rewrite range_ids_singleton by assumption. reflexivity.
Qed.

Lemma enrichEscalationRules_requests_witness :
  (forall s : gset Z, elements s ≡ₚ elements s) /\ [rule3] <> [] /\
  (enrichEscalationRules (fun m => map_to_list m) (elements (C := gset Z))
     channelListClient 4 [rule3]).1 ≡ₚ
    batchRequest "/person/infos" "person_ids" elements
      (collectRuleIDs (fun m => map_to_list m) [rule3]).1.1 ++
    batchRequest "/team/infos" "team_ids" elements
      (collectRuleIDs (fun m => map_to_list m) [rule3]).1.2 ++
    batchRequest "/schedule/infos" "schedule_ids" elements
      (collectRuleIDs (fun m => map_to_list m) [rule3]).2 ++
    [{| req_method := "POST"; req_path := "/channel/infos";
        req_key := "channel_ids"; req_ids := [4] |}].
Proof.
  split; [intros s; reflexivity|]. split; [discriminate|].
  exact (enrichEscalationRules_requests (fun m => map_to_list m) (elements (C := gset Z))
           channelListClient (fun s => reflexivity _) 4 [rule3] ltac:(discriminate)).
Defined.
